(** * consistent_polytope_nd: grid of feasible perturbations

    Shallow embedding of [src/lib/utils.py].  The routine takes a matrix
    of parameter vectors (one per column), per-dimension bounds on the
    perturbation, and a step size; it returns the list of pairs
    [(p_k, delta_p)] enumerated column by column.

    Two embeddings of the body are given.  The first computes over exact
    rationals ([Q]) and carries the general proofs.  The second,
    [Binary64], is the same code over IEEE binary64 numbers, the numbers
    of a [float64] array; it is evaluated where rounding or overflow
    decides what the routine does.  Python exceptions are values of
    [exn]; a computation that can raise returns a [result]. *)

From Stdlib Require Import QArith Qminmax Qround ZArith List Lia Lqa Bool.
From Stdlib Require Import Floats.
Import ListNotations.
Open Scope Q_scope.

(** ** Exceptions and results *)

Inductive exn : Set :=
| ValueError
| IndexError
| OverflowError
| AxisError.

Inductive result (A : Type) : Type :=
| Ok (a : A)
| Raise (e : exn).

Arguments Ok {A} a.
Arguments Raise {A} e.

Definition bind {A B : Type} (r : result A) (f : A -> result B) : result B :=
  match r with
  | Ok a => f a
  | Raise e => Raise e
  end.

Notation "x <- r ;; k" := (bind r (fun x => k))
  (at level 61, r at next level, right associativity).

Fixpoint mapM {A B : Type} (f : A -> result B) (l : list A) : result (list B) :=
  match l with
  | [] => Ok []
  | a :: l' => b <- f a ;; bs <- mapM f l' ;; Ok (b :: bs)
  end.

(** ** Scalars: Python's [int], [min] and [<] on exact numbers *)

Definition Qlt_bool (a b : Q) : bool := negb (Qle_bool b a).

(** [int(x)]: truncation toward zero. *)
Definition py_int (x : Q) : Z := Z.quot (Qnum x) (Zpos (Qden x)).

(** The builtin [min(a, b)]: the first argument unless the second is
    strictly smaller. *)
Definition py_min (a b : Q) : Q := if Qlt_bool b a then b else a.

(** ** One-dimensional arrays and broadcasting *)

Fixpoint zip_with (f : Q -> Q -> Q) (u v : list Q) : list Q :=
  match u, v with
  | x :: u', y :: v' => f x y :: zip_with f u' v'
  | _, _ => []
  end.

(** A binary ufunc on two 1-d arrays: equal lengths combine pointwise, a
    length-1 operand is stretched, anything else does not broadcast. *)
Definition broadcast2 (f : Q -> Q -> Q) (u v : list Q) : result (list Q) :=
  if Nat.eqb (length u) (length v) then Ok (zip_with f u v)
  else if Nat.eqb (length u) 1 then Ok (map (f (hd 0 u)) v)
  else if Nat.eqb (length v) 1 then Ok (map (fun x => f x (hd 0 v)) u)
  else Raise ValueError.

(** [a[d]] on a 1-d array. *)
Definition index (a : list Q) (d : nat) : result Q :=
  match nth_error a d with
  | Some x => Ok x
  | None => Raise IndexError
  end.

(** ** Input arrays and normalization (lines 19-22) *)

(** An [ndarray] as nested sequences; a 0-d array or Python number is a
    [Scalar].  [Array []] is the empty 1-d array. *)
#[local] Set Warnings "-register-all".

Inductive ndarray : Type :=
| Scalar (x : Q)
| Array (items : list ndarray).

Fixpoint ndim (a : ndarray) : nat :=
  match a with
  | Scalar _ => 0
  | Array items =>
      S (match items with
         | [] => 0
         | x :: _ => ndim x
         end)
  end.

Fixpoint shape (a : ndarray) : list nat :=
  match a with
  | Scalar _ => []
  | Array items =>
      length items :: match items with
                      | [] => []
                      | x :: _ => shape x
                      end
  end.

(** The first four statements of the function body: a rank-1 [params]
    becomes [params[None, :]] and each bound becomes [np.array([bound])]. *)
Definition normalize (params delta_params_min delta_params_max : ndarray)
  : ndarray * ndarray * ndarray :=
  if Nat.eqb (ndim params) 1
  then (Array [params], Array [delta_params_min], Array [delta_params_max])
  else (params, delta_params_min, delta_params_max).

Definition of_vector (v : list Q) : ndarray := Array (map Scalar v).
Definition of_matrix (m : list (list Q)) : ndarray := Array (map of_vector m).

Definition as_scalar (a : ndarray) : option Q :=
  match a with
  | Scalar x => Some x
  | Array _ => None
  end.

Fixpoint option_all {A : Type} (l : list (option A)) : option (list A) :=
  match l with
  | [] => Some []
  | Some a :: l' =>
      match option_all l' with
      | Some r => Some (a :: r)
      | None => None
      end
  | None :: _ => None
  end.

Definition as_vector (a : ndarray) : option (list Q) :=
  match a with
  | Scalar _ => None
  | Array items => option_all (map as_scalar items)
  end.

(** A rank-2 array as its list of rows.  There is at least one row:
    [Array []] is the empty vector. *)
Definition as_matrix (a : ndarray) : option (list (list Q)) :=
  match a with
  | Scalar _ => None
  | Array [] => None
  | Array rows => option_all (map as_vector rows)
  end.

(** A bound as the 1-d array it broadcasts like: a scalar behaves as a
    length-1 array in every operation of the body. *)
Definition as_bound (a : ndarray) : option (list Q) :=
  match a with
  | Scalar x => Some [x]
  | Array _ => as_vector a
  end.

(** ** Global envelope (lines 25-26) *)

(** [np.min] / [np.max] along one row; a reduction over an empty axis
    raises. *)
Definition row_min (row : list Q) : result Q :=
  match row with
  | [] => Raise ValueError
  | x :: xs => Ok (fold_left Qmin xs x)
  end.

Definition row_max (row : list Q) : result Q :=
  match row with
  | [] => Raise ValueError
  | x :: xs => Ok (fold_left Qmax xs x)
  end.

(** [params[:, k]] *)
Definition column (params : list (list Q)) (k : nat) : list Q :=
  map (fun row => nth k row 0) params.

(** [params.shape[1]] *)
Definition shape1 (params : list (list Q)) : nat :=
  match params with
  | [] => 0%nat
  | row :: _ => length row
  end.

(** ** Feasible interval of a column (lines 36-37) *)

(** The differences [p_min - p_k] and [p_max - p_k] are exact here; their
    rounded counterparts are [Binary64.delta_min_k] and
    [Binary64.delta_max_k]. *)
Definition delta_min_k (delta_params_min delta_params_max p_min p_k : list Q)
  : result (list Q) :=
  a <- broadcast2 Qminus p_min p_k ;;
  b <- broadcast2 Qmax a (map Qopp delta_params_max) ;;
  broadcast2 Qmax delta_params_min b.

Definition delta_max_k (delta_params_max p_max p_k : list Q)
  : result (list Q) :=
  a <- broadcast2 Qminus p_max p_k ;;
  b <- broadcast2 Qmin a delta_params_max ;;
  broadcast2 Qmin delta_params_max b.

(** One component of [delta_max_k], as written in the source. *)
Definition delta_max_formula (delta_max p_max p_k : Q) : Q :=
  Qmin delta_max (Qmin (p_max - p_k) delta_max).

(** ** Discretization of one dimension (lines 44-50) *)

(** [int((delta_max - delta_min) / step_size) + 1]; a zero step makes the
    quotient infinite or undefined and [int] raises.  The quotient is
    exact and never overflows; [Binary64.num_dp_points] is the rounded
    one, where [int] also raises on a quotient that overflowed. *)
Definition num_dp_points (delta_min delta_max step_size : Q) : result Z :=
  if Qeq_bool step_size 0
  then Raise (if Qeq_bool (delta_max - delta_min) 0
              then ValueError else OverflowError)
  else Ok (py_int ((delta_max - delta_min) / step_size) + 1)%Z.

(** The list comprehension over [range(num_dp_points)], with exact sums
    and products ([Binary64.stepped] rounds them). *)
Definition stepped (delta_min delta_max step_size : Q) (n : Z) : list Q :=
  map (fun j => py_min (delta_min + inject_Z (Z.of_nat j) * step_size) delta_max)
      (seq 0 (Z.to_nat n)).

(** [l[-1]] *)
Definition last_item (l : list Q) : result Q :=
  match l with
  | [] => Raise IndexError
  | x :: l' => Ok (last l' x)
  end.

Definition range_points (delta_min delta_max step_size : Q) : result (list Q) :=
  n <- num_dp_points delta_min delta_max step_size ;;
  let pts := stepped delta_min delta_max step_size n in
  l <- last_item pts ;;
  Ok (if Qlt_bool l delta_max then pts ++ [delta_max] else pts).

(** The inner [for d in range(params.shape[0])] loop: one axis per row. *)
Definition delta_ranges (lo hi : list Q) (step_size : Q) (rows : nat)
  : result (list (list Q)) :=
  mapM (fun d =>
          delta_min <- index lo d ;;
          delta_max <- index hi d ;;
          range_points delta_min delta_max step_size)
       (seq 0 rows).

(** ** Cartesian product and clipping (lines 55-60) *)

(** Number of entries of each array returned by [np.meshgrid]. *)
Fixpoint mesh_size (axes : list (list Q)) : nat :=
  match axes with
  | [] => 1%nat
  | a :: rest => (length a * mesh_size rest)%nat
  end.

(** Entry [i] of every [delta.ravel()]: with [indexing="ij"] the mesh of
    axis [d] holds [axis_d[i_d]] at position [(i_1, ..., i_R)], and
    [ravel] lists the positions in row-major order. *)
Fixpoint unravel (i : nat) (axes : list (list Q)) : list Q :=
  match axes with
  | [] => []
  | a :: rest =>
      nth ((i / mesh_size rest) mod length a) a 0 :: unravel i rest
  end.

(** [np.stack([delta.ravel() for delta in delta_mesh], axis=-1)]; stacking
    an empty list of arrays raises. *)
Definition delta_combinations (axes : list (list Q))
  : result (list (list Q)) :=
  match axes with
  | [] => Raise ValueError
  | _ => Ok (map (fun i => unravel i axes) (seq 0 (mesh_size axes)))
  end.

(** [np.clip(delta_p, delta_params_min, delta_params_max)]: the maximum
    with the lower bound, then the minimum with the upper bound. *)
Definition clip_vec (delta_p delta_params_min delta_params_max : list Q)
  : result (list Q) :=
  a <- broadcast2 Qmax delta_p delta_params_min ;;
  broadcast2 Qmin a delta_params_max.

Definition pair_t : Type := (list Q * list Q)%type.

(** The pairs one column appends to [grid_points]. *)
Definition column_points (params : list (list Q))
    (delta_params_min delta_params_max p_min p_max : list Q)
    (step_size : Q) (k : nat) : result (list pair_t) :=
  let p_k := column params k in
  lo <- delta_min_k delta_params_min delta_params_max p_min p_k ;;
  hi <- delta_max_k delta_params_max p_max p_k ;;
  axes <- delta_ranges lo hi step_size (length params) ;;
  combos <- delta_combinations axes ;;
  mapM (fun delta_p =>
          c <- clip_vec delta_p delta_params_min delta_params_max ;;
          Ok (p_k, c))
       combos.

(** The [for k in range(params.shape[1])] loop, threading [grid_points]. *)
Fixpoint column_loop (body : nat -> result (list pair_t)) (ks : list nat)
    (grid_points : list pair_t) : result (list pair_t) :=
  match ks with
  | [] => Ok grid_points
  | k :: ks' =>
      new <- body k ;;
      column_loop body ks' (grid_points ++ new)
  end.

(** The body of the function after normalization, on a rank-2 [params]
    given by its rows and 1-d bounds. *)
Definition polytope_grid (params : list (list Q))
    (delta_params_min delta_params_max : list Q) (step_size : Q)
  : result (list pair_t) :=
  p_min <- mapM row_min params ;;
  p_max <- mapM row_max params ;;
  column_loop
    (column_points params delta_params_min delta_params_max p_min p_max
       step_size)
    (seq 0 (shape1 params)) [].

(** The whole function.  [None] marks inputs outside the fragment covered
    here (after normalization: [params] of rank other than 0 or 2, or a
    bound of rank 2 or more); a rank-0 [params] has no axis 1. *)
Definition consistent_polytope_nd
    (params delta_params_min delta_params_max : ndarray) (step_size : Q)
  : option (result (list pair_t)) :=
  let '(params, delta_params_min, delta_params_max) :=
    normalize params delta_params_min delta_params_max in
  match params with
  | Scalar _ => Some (Raise AxisError)
  | Array _ =>
      match as_matrix params, as_bound delta_params_min,
            as_bound delta_params_max with
      | Some m, Some dmin, Some dmax =>
          Some (polytope_grid m dmin dmax step_size)
      | _, _, _ => None
      end
  end.

(** ** The body over binary64 numbers

    The same statements as above with the arithmetic of a [float64]
    array: every operation rounds to nearest, ties to even, overflows to
    an infinity, and [int] raises on an infinity or a NaN. *)

Module Binary64.

(** [int(x)]: truncation toward zero of a finite number. *)
Definition py_int (x : float) : result Z :=
  match Prim2SF x with
  | S754_zero _ => Ok 0%Z
  | S754_infinity _ => Raise OverflowError
  | S754_nan => Raise ValueError
  | S754_finite s m e =>
      let magnitude := Z.shiftl (Zpos m) e in
      Ok (if s then (- magnitude)%Z else magnitude)
  end.

(** The loop index [j] as the float it becomes in [j * step_size]. *)
Definition py_float (j : Z) : float :=
  SF2Prim (binary_normalize prec emax j 0 false).

(** The builtin [min(a, b)]. *)
Definition py_min (a b : float) : float := if (b <? a)%float then b else a.

(** [np.maximum] and [np.minimum] on two numbers; a NaN propagates. *)
Definition maximum (a b : float) : float :=
  if (b <=? a)%float || is_nan a then a else b.

Definition minimum (a b : float) : float :=
  if (a <=? b)%float || is_nan a then a else b.

Fixpoint zip_with (f : float -> float -> float) (u v : list float)
  : list float :=
  match u, v with
  | x :: u', y :: v' => f x y :: zip_with f u' v'
  | _, _ => []
  end.

Definition broadcast2 (f : float -> float -> float) (u v : list float)
  : result (list float) :=
  if Nat.eqb (length u) (length v) then Ok (zip_with f u v)
  else if Nat.eqb (length u) 1 then Ok (map (f (hd zero u)) v)
  else if Nat.eqb (length v) 1 then Ok (map (fun x => f x (hd zero v)) u)
  else Raise ValueError.

Definition index (a : list float) (d : nat) : result float :=
  match nth_error a d with
  | Some x => Ok x
  | None => Raise IndexError
  end.

(** Lines 25-26. *)
Definition row_min (row : list float) : result float :=
  match row with
  | [] => Raise ValueError
  | x :: xs => Ok (fold_left minimum xs x)
  end.

Definition row_max (row : list float) : result float :=
  match row with
  | [] => Raise ValueError
  | x :: xs => Ok (fold_left maximum xs x)
  end.

Definition column (params : list (list float)) (k : nat) : list float :=
  map (fun row => nth k row zero) params.

Definition shape1 (params : list (list float)) : nat :=
  match params with
  | [] => 0%nat
  | row :: _ => length row
  end.

(** Lines 36-37. *)
Definition delta_min_k (delta_params_min delta_params_max p_min p_k : list float)
  : result (list float) :=
  a <- broadcast2 sub p_min p_k ;;
  b <- broadcast2 maximum a (map opp delta_params_max) ;;
  broadcast2 maximum delta_params_min b.

Definition delta_max_k (delta_params_max p_max p_k : list float)
  : result (list float) :=
  a <- broadcast2 sub p_max p_k ;;
  b <- broadcast2 minimum a delta_params_max ;;
  broadcast2 minimum delta_params_max b.

(** Lines 44-50. *)
Definition num_dp_points (delta_min delta_max step_size : float) : result Z :=
  n <- py_int ((delta_max - delta_min) / step_size)%float ;;
  Ok (n + 1)%Z.

Definition stepped (delta_min delta_max step_size : float) (n : Z)
  : list float :=
  map (fun j =>
         py_min (delta_min + py_float (Z.of_nat j) * step_size)%float delta_max)
      (seq 0 (Z.to_nat n)).

Definition last_item (l : list float) : result float :=
  match l with
  | [] => Raise IndexError
  | x :: l' => Ok (last l' x)
  end.

Definition range_points (delta_min delta_max step_size : float)
  : result (list float) :=
  n <- num_dp_points delta_min delta_max step_size ;;
  let pts := stepped delta_min delta_max step_size n in
  l <- last_item pts ;;
  Ok (if (l <? delta_max)%float then pts ++ [delta_max] else pts).

Definition delta_ranges (lo hi : list float) (step_size : float) (rows : nat)
  : result (list (list float)) :=
  mapM (fun d =>
          delta_min <- index lo d ;;
          delta_max <- index hi d ;;
          range_points delta_min delta_max step_size)
       (seq 0 rows).

(** Lines 55-60. *)
Fixpoint mesh_size (axes : list (list float)) : nat :=
  match axes with
  | [] => 1%nat
  | a :: rest => (length a * mesh_size rest)%nat
  end.

Fixpoint unravel (i : nat) (axes : list (list float)) : list float :=
  match axes with
  | [] => []
  | a :: rest =>
      nth ((i / mesh_size rest) mod length a) a zero :: unravel i rest
  end.

Definition delta_combinations (axes : list (list float))
  : result (list (list float)) :=
  match axes with
  | [] => Raise ValueError
  | _ => Ok (map (fun i => unravel i axes) (seq 0 (mesh_size axes)))
  end.

Definition clip_vec (delta_p delta_params_min delta_params_max : list float)
  : result (list float) :=
  a <- broadcast2 maximum delta_p delta_params_min ;;
  broadcast2 minimum a delta_params_max.

Definition pair_t : Type := (list float * list float)%type.

Definition column_points (params : list (list float))
    (delta_params_min delta_params_max p_min p_max : list float)
    (step_size : float) (k : nat) : result (list pair_t) :=
  let p_k := column params k in
  lo <- delta_min_k delta_params_min delta_params_max p_min p_k ;;
  hi <- delta_max_k delta_params_max p_max p_k ;;
  axes <- delta_ranges lo hi step_size (length params) ;;
  combos <- delta_combinations axes ;;
  mapM (fun delta_p =>
          c <- clip_vec delta_p delta_params_min delta_params_max ;;
          Ok (p_k, c))
       combos.

Fixpoint column_loop (body : nat -> result (list pair_t)) (ks : list nat)
    (grid_points : list pair_t) : result (list pair_t) :=
  match ks with
  | [] => Ok grid_points
  | k :: ks' =>
      new <- body k ;;
      column_loop body ks' (grid_points ++ new)
  end.

(** The function on a rank-2 [params] given by its rows, with 1-d
    bounds: the inputs that the normalization leaves as they are. *)
Definition polytope_grid (params : list (list float))
    (delta_params_min delta_params_max : list float) (step_size : float)
  : result (list pair_t) :=
  p_min <- mapM row_min params ;;
  p_max <- mapM row_max params ;;
  column_loop
    (column_points params delta_params_min delta_params_max p_min p_max
       step_size)
    (seq 0 (shape1 params)) [].

End Binary64.

(** ** Vocabulary of the statements *)

(** The [j]-th stepped value before capping. *)
Definition grid (delta_min step_size : Q) (j : nat) : Q :=
  delta_min + inject_Z (Z.of_nat j) * step_size.

(** Number of whole steps that fit in a feasible interval. *)
Definition whole_steps (delta_min delta_max step_size : Q) : nat :=
  Z.to_nat (Qfloor ((delta_max - delta_min) / step_size)).

(** [adjacent R l]: every element of [l] is related to its successor. *)
Fixpoint adjacent (R : Q -> Q -> Prop) (l : list Q) : Prop :=
  match l with
  | x :: (y :: _) as l' => R x y /\ adjacent R l'
  | _ => True
  end.

(** The Cartesian product of the axes in lexicographic order, the first
    axis varying slowest. *)
Fixpoint cartesian (axes : list (list Q)) : list (list Q) :=
  match axes with
  | [] => [[]]
  | a :: rest => flat_map (fun x => map (cons x) (cartesian rest)) a
  end.

(** A rank-2 array with [rows] rows and [cols] columns, given by its
    rows. *)
Definition rectangular (params : list (list Q)) (rows cols : nat) : Prop :=
  length params = rows /\ Forall (fun row => length row = cols) params.

(** [params[d, k]] *)
Definition entry (params : list (list Q)) (d k : nat) : Q :=
  nth k (nth d params []) 0.

(** One component of [delta_min_k], as written in the source. *)
Definition delta_min_formula (delta_min delta_max p_min p_k : Q) : Q :=
  Qmax delta_min (Qmax (p_min - p_k) (- delta_max)).

(** The feasible interval of dimension [d] of column [k]. *)
Definition lo_at (params : list (list Q)) (dmin dmax p_min : list Q)
    (k d : nat) : Q :=
  delta_min_formula (nth d dmin 0) (nth d dmax 0) (nth d p_min 0)
    (entry params d k).

Definition hi_at (params : list (list Q)) (dmax p_max : list Q)
    (k d : nat) : Q :=
  delta_max_formula (nth d dmax 0) (nth d p_max 0) (entry params d k).

(** * Properties *)

(** ** The error monad *)

Lemma bind_Ok {A B : Type} (r : result A) (f : A -> result B) (b : B) :
  bind r f = Ok b -> exists a, r = Ok a /\ f a = Ok b.
Proof.
  destruct r as [a|e]; simpl; intros H; [eauto | discriminate].
Qed.

Lemma mapM_Ok_Forall2 {A B : Type} (f : A -> result B) (l : list A) (r : list B) :
  mapM f l = Ok r <-> Forall2 (fun x y => f x = Ok y) l r.
Proof.
  revert r; induction l as [|a l IH]; intros r; simpl.
  - split; intros H.
    + injection H as <-. constructor.
    + inversion H. reflexivity.
  - split; intros H.
    + apply bind_Ok in H as (b & Hb & H).
      apply bind_Ok in H as (bs & Hbs & H).
      injection H as <-. constructor; [assumption | now apply IH].
    + inversion H as [|x y l' r' Hxy Hrest]; subst.
      rewrite Hxy. simpl. apply IH in Hrest. rewrite Hrest. reflexivity.
Qed.

Lemma mapM_length {A B : Type} (f : A -> result B) (l : list A) (r : list B) :
  mapM f l = Ok r -> length r = length l.
Proof.
  intros H. apply mapM_Ok_Forall2 in H. symmetry.
  induction H; simpl; congruence.
Qed.

(** ** Comparisons, [min] and [int] *)

Lemma Qlt_bool_iff (a b : Q) : Qlt_bool a b = true <-> a < b.
Proof.
  unfold Qlt_bool. rewrite negb_true_iff.
  destruct (Qle_bool b a) eqn:E.
  - apply Qle_bool_iff in E. split; [discriminate | intros H; lra].
  - split; [intros _ | reflexivity].
    apply Qnot_le_lt. intros H. apply Qle_bool_iff in H. congruence.
Qed.

Lemma Qlt_bool_false (a b : Q) : Qlt_bool a b = false <-> b <= a.
Proof.
  destruct (Qlt_bool a b) eqn:E.
  - apply Qlt_bool_iff in E. split; [discriminate | intros H; lra].
  - split; [intros _ | reflexivity].
    apply Qnot_lt_le. intros H. apply Qlt_bool_iff in H. congruence.
Qed.

Lemma py_min_le (a b : Q) : a <= b -> py_min a b = a.
Proof.
  intros H. unfold py_min.
  destruct (Qlt_bool b a) eqn:E; [|reflexivity].
  apply Qlt_bool_iff in E. lra.
Qed.

Lemma py_min_gt (a b : Q) : b < a -> py_min a b = b.
Proof.
  intros H. unfold py_min.
  apply Qlt_bool_iff in H. now rewrite H.
Qed.

(** On non-negative numbers truncation is the floor. *)
Lemma py_int_nonneg (x : Q) : 0 <= x -> py_int x = Qfloor x.
Proof.
  destruct x as [n d]. unfold py_int, Qfloor, Qle. simpl.
  intros H. apply Z.quot_div_nonneg; lia.
Qed.

(** Strictly between -1 and 0 truncation gives 0. *)
Lemma py_int_small_neg (x : Q) : -1 < x -> x <= 0 -> py_int x = 0%Z.
Proof.
  destruct x as [n d]. unfold py_int, Qlt, Qle. simpl.
  intros H1 H2.
  replace n with (- (- n))%Z by lia.
  rewrite Z.quot_opp_l by lia.
  rewrite Z.quot_small; lia.
Qed.

(** At or below -1 truncation stays at or below -1. *)
Lemma py_int_le_m1 (x : Q) : x <= -1 -> (py_int x <= -1)%Z.
Proof.
  destruct x as [n d]. unfold py_int, Qle. simpl.
  intros H.
  replace n with (- (- n))%Z by lia.
  rewrite Z.quot_opp_l by lia.
  rewrite Z.quot_div_nonneg by lia.
  assert (1 <= - n / Z.pos d)%Z; [|lia].
  apply Z.div_le_lower_bound; lia.
Qed.

(** ** Discretization of a feasible interval *)

Lemma last_item_snoc (l : list Q) (x : Q) : last_item (l ++ [x]) = Ok x.
Proof.
  destruct l as [|y l]; simpl; [reflexivity|].
  now rewrite last_last.
Qed.

Lemma num_dp_points_step (lo hi step : Q) :
  ~ step == 0 ->
  num_dp_points lo hi step = Ok (py_int ((hi - lo) / step) + 1)%Z.
Proof.
  intros H. unfold num_dp_points.
  destruct (Qeq_bool step 0) eqn:E; [|reflexivity].
  apply Qeq_bool_iff in E. contradiction.
Qed.

Section Discretize.

Variables lo hi step : Q.
Hypothesis step_pos : 0 < step.

Local Abbreviation q := ((hi - lo) / step).

Lemma quotient_scaled : q * step == hi - lo.
Proof. field. lra. Qed.

Lemma quotient_nonneg : lo <= hi -> 0 <= q.
Proof.
  intros H. apply Qle_shift_div_l; [assumption | lra].
Qed.

Lemma grid_step (j : nat) : grid lo step (S j) == grid lo step j + step.
Proof.
  unfold grid. rewrite Nat2Z.inj_succ. unfold Z.succ.
  rewrite inject_Z_plus. ring.
Qed.

Lemma grid_lt (i j : nat) : (i < j)%nat -> grid lo step i < grid lo step j.
Proof.
  induction 1 as [|j _ IH].
  - rewrite grid_step. lra.
  - rewrite grid_step. lra.
Qed.

Lemma grid_le (i j : nat) : (i <= j)%nat -> grid lo step i <= grid lo step j.
Proof.
  intros H. apply Nat.lt_eq_cases in H as [H| ->].
  - apply Qlt_le_weak, grid_lt, H.
  - apply Qle_refl.
Qed.

Lemma grid_0 : grid lo step 0 == lo.
Proof. unfold grid. simpl. ring. Qed.

Lemma whole_steps_inject :
  lo <= hi -> inject_Z (Z.of_nat (whole_steps lo hi step)) = inject_Z (Qfloor q).
Proof.
  intros H. unfold whole_steps. rewrite Z2Nat.id; [reflexivity|].
  rewrite <- (Qfloor_Z 0). apply Qfloor_resp_le, quotient_nonneg, H.
Qed.

Lemma grid_whole_steps_le : lo <= hi -> grid lo step (whole_steps lo hi step) <= hi.
Proof.
  intros H. unfold grid. rewrite (whole_steps_inject H).
  pose proof (Qfloor_le q) as Hq.
  assert (inject_Z (Qfloor q) * step <= q * step) as Hm.
  { apply Qmult_le_compat_r; lra. }
  rewrite quotient_scaled in Hm. lra.
Qed.

Lemma grid_next_gt : lo <= hi -> hi < grid lo step (S (whole_steps lo hi step)).
Proof.
  intros H. rewrite grid_step. unfold grid. rewrite (whole_steps_inject H).
  pose proof (Qlt_floor q) as Hq. rewrite inject_Z_plus in Hq.
  assert (q * step < (inject_Z (Qfloor q) + inject_Z 1) * step) as Hm.
  { apply Qmult_lt_compat_r; assumption. }
  rewrite quotient_scaled in Hm.
  setoid_replace (inject_Z 1) with 1 in Hm by reflexivity. lra.
Qed.

Lemma stepped_feasible :
  lo <= hi ->
  stepped lo hi step (py_int q + 1) = map (grid lo step) (seq 0 (S (whole_steps lo hi step))).
Proof.
  intros H. unfold stepped.
  rewrite py_int_nonneg by (apply quotient_nonneg, H).
  replace (Z.to_nat (Qfloor q + 1)) with (S (whole_steps lo hi step)).
  2:{ unfold whole_steps. rewrite Z2Nat.inj_add; [simpl; lia| |lia].
      rewrite <- (Qfloor_Z 0). apply Qfloor_resp_le, quotient_nonneg, H. }
  apply map_ext_in. intros j Hj. apply in_seq in Hj.
  apply py_min_le. fold (grid lo step j).
  apply Qle_trans with (grid lo step (whole_steps lo hi step)).
  - apply grid_le. lia.
  - apply grid_whole_steps_le, H.
Qed.

(** On a feasible interval the discretization is the stepped values
    [lo, lo + step, ...] that do not exceed [hi], followed by [hi] when
    the last of them falls short of it. *)
Lemma range_points_feasible :
  lo <= hi ->
  range_points lo hi step =
  Ok (if Qlt_bool (grid lo step (whole_steps lo hi step)) hi
      then map (grid lo step) (seq 0 (S (whole_steps lo hi step))) ++ [hi]
      else map (grid lo step) (seq 0 (S (whole_steps lo hi step)))).
Proof.
  intros H. unfold range_points.
  rewrite num_dp_points_step by lra.
  unfold bind at 1. rewrite (stepped_feasible H).
  assert (last_item (map (grid lo step) (seq 0 (S (whole_steps lo hi step))))
          = Ok (grid lo step (whole_steps lo hi step))) as ->.
  { rewrite seq_S, map_app. apply last_item_snoc. }
  reflexivity.
Qed.

End Discretize.

Lemma adjacent_map_seq (R : Q -> Q -> Prop) (f : nat -> Q) (a n : nat) :
  (forall j, R (f j) (f (S j))) -> adjacent R (map f (seq a n)).
Proof.
  intros H. revert a. induction n as [|n IH]; intros a; [exact I|].
  specialize (IH (S a)). simpl. destruct n as [|n]; [exact I|].
  simpl in *. split; [apply H | exact IH].
Qed.

Lemma last_default (l : list Q) (c a b : Q) : last (c :: l) a = last (c :: l) b.
Proof.
  revert c. induction l as [|x l IH]; intros c; [reflexivity|].
  change (last (x :: l) a = last (x :: l) b). apply IH.
Qed.

Lemma last_item_cons (a b : Q) (l : list Q) :
  last_item (a :: b :: l) = last_item (b :: l).
Proof.
  unfold last_item. f_equal.
  destruct l as [|c l]; [reflexivity|].
  change (last (c :: l) a = last (c :: l) b). apply last_default.
Qed.

Lemma adjacent_snoc (R : Q -> Q -> Prop) (l : list Q) (x : Q) :
  adjacent R l ->
  (forall y, last_item l = Ok y -> R y x) ->
  adjacent R (l ++ [x]).
Proof.
  induction l as [|a l IH]; intros Hl Hx; [exact I|].
  destruct l as [|b l].
  - simpl. split; [apply Hx; reflexivity | exact I].
  - destruct Hl as [Hab Hl]. change (R a b /\ adjacent R ((b :: l) ++ [x])).
    split; [assumption|]. apply IH; [assumption|].
    intros y Hy. apply Hx. rewrite last_item_cons. exact Hy.
Qed.


(** Summary of the discretization of a feasible interval. *)
Lemma range_points_feasible_spec (lo hi step : Q) :
  0 < step -> lo <= hi ->
  exists first rest,
    range_points lo hi step = Ok (first :: rest) /\
    first == lo /\
    last rest first == hi /\
    adjacent Qlt (first :: rest) /\
    Forall (fun x => lo <= x <= hi) (first :: rest).
Proof.
  intros Hs Hle.
  pose proof (range_points_feasible lo hi step Hs Hle) as Hrp.
  pose proof (grid_whole_steps_le lo hi step Hs Hle) as Hlast.
  set (N := whole_steps lo hi step) in *.
  assert (Hin : Forall (fun x => lo <= x <= hi) (map (grid lo step) (seq 0 (S N)))).
  { apply Forall_forall. intros x Hx. apply in_map_iff in Hx as (j & <- & Hj).
    apply in_seq in Hj. split.
    - rewrite <- (grid_0 lo step) at 1. apply (grid_le lo step Hs). lia.
    - apply Qle_trans with (grid lo step N);
        [apply (grid_le lo step Hs); lia | exact Hlast]. }
  assert (Hadj : adjacent Qlt (map (grid lo step) (seq 0 (S N)))).
  { apply adjacent_map_seq. intros j. apply (grid_lt lo step Hs). lia. }
  assert (Hlst : last_item (map (grid lo step) (seq 0 (S N))) = Ok (grid lo step N)).
  { rewrite seq_S, map_app. apply last_item_snoc. }
  exists (grid lo step 0).
  destruct (Qlt_bool (grid lo step N) hi) eqn:E.
  - exists (map (grid lo step) (seq 1 N) ++ [hi]).
    split; [exact Hrp|]. split; [apply grid_0|].
    split; [rewrite last_last; reflexivity|].
    split.
    + change (adjacent Qlt (map (grid lo step) (seq 0 (S N)) ++ [hi])).
      apply adjacent_snoc; [exact Hadj|].
      intros y Hy. rewrite Hlst in Hy. injection Hy as <-.
      now apply Qlt_bool_iff.
    + change (Forall (fun x => lo <= x <= hi)
                (map (grid lo step) (seq 0 (S N)) ++ [hi])).
      apply Forall_app. split; [exact Hin|].
      constructor; [|constructor]. split; [exact Hle | apply Qle_refl].
  - exists (map (grid lo step) (seq 1 N)).
    split; [exact Hrp|]. split; [apply grid_0|].
    split.
    + apply Qlt_bool_false in E.
      change (last_item (grid lo step 0 :: map (grid lo step) (seq 1 N))
              = Ok (grid lo step N)) in Hlst.
      injection Hlst as ->. lra.
    + split; [exact Hadj | exact Hin].
Qed.

(** ** Degenerate and infeasible intervals *)

Lemma range_points_degenerate (lo hi step : Q) :
  0 < step -> lo == hi ->
  range_points lo hi step = Ok [grid lo step 0].
Proof.
  intros Hs He.
  assert (Hle : lo <= hi) by lra.
  rewrite (range_points_feasible lo hi step Hs Hle).
  assert (HN : whole_steps lo hi step = 0%nat).
  { unfold whole_steps.
    assert (Hq : (hi - lo) / step == 0) by (field_simplify_eq; lra).
    rewrite Hq. reflexivity. }
  rewrite HN.
  assert (E : Qlt_bool (grid lo step 0) hi = false).
  { apply Qlt_bool_false. rewrite grid_0. lra. }
  rewrite E. reflexivity.
Qed.

(** An interval inverted by less than one step: truncation toward zero
    gives one point, capped at the upper end. *)
Lemma range_points_inverted_small (lo hi step : Q) :
  0 < step -> hi < lo -> lo - hi < step ->
  range_points lo hi step = Ok [hi].
Proof.
  intros Hs Hlt Hgap. unfold range_points.
  rewrite num_dp_points_step by lra.
  assert (Hq : py_int ((hi - lo) / step) = 0%Z).
  { apply py_int_small_neg.
    - apply Qlt_shift_div_l; [assumption | lra].
    - apply Qle_shift_div_r; [assumption | lra]. }
  rewrite Hq. unfold bind at 1. unfold stepped. simpl.
  rewrite py_min_gt
    by (setoid_replace (inject_Z 0) with 0 by reflexivity; lra).
  simpl.
  assert (E : Qlt_bool hi hi = false) by (apply Qlt_bool_false; lra).
  rewrite E. reflexivity.
Qed.

(** An interval inverted by a whole step or more: no point is generated
    and [range_points[-1]] fails. *)
Lemma range_points_inverted_large (lo hi step : Q) :
  0 < step -> step <= lo - hi ->
  range_points lo hi step = Raise IndexError.
Proof.
  intros Hs Hgap. unfold range_points.
  rewrite num_dp_points_step by lra.
  assert (Hq : (py_int ((hi - lo) / step) <= -1)%Z).
  { apply py_int_le_m1. apply Qle_shift_div_r; [assumption | lra]. }
  unfold bind at 1. unfold stepped.
  replace (Z.to_nat (py_int ((hi - lo) / step) + 1)) with 0%nat by lia.
  reflexivity.
Qed.

(** With a positive step the only failure of the discretization is the
    empty point list. *)
Lemma range_points_total (lo hi step : Q) :
  0 < step ->
  (exists pts, range_points lo hi step = Ok pts /\ pts <> []) \/
  range_points lo hi step = Raise IndexError.
Proof.
  intros Hs.
  destruct (Qlt_le_dec hi lo) as [Hinv|Hle].
  - destruct (Qlt_le_dec (lo - hi) step) as [Hsmall|Hlarge].
    + left. exists [hi]. split; [now apply range_points_inverted_small | discriminate].
    + right. now apply range_points_inverted_large.
  - left. destruct (range_points_feasible_spec lo hi step Hs Hle)
      as (first & rest & Hrp & _).
    exists (first :: rest). split; [exact Hrp | discriminate].
Qed.

(** ** Arrays of equal length *)

Lemma broadcast2_same (f : Q -> Q -> Q) (u v : list Q) :
  length u = length v -> broadcast2 f u v = Ok (zip_with f u v).
Proof.
  intros H. unfold broadcast2. rewrite H, Nat.eqb_refl. reflexivity.
Qed.

Lemma zip_with_length (f : Q -> Q -> Q) (u v : list Q) :
  length u = length v -> length (zip_with f u v) = length u.
Proof.
  revert v. induction u as [|x u IH]; intros [|y v] H; simpl in *;
    try discriminate; [reflexivity|].
  f_equal. apply IH. lia.
Qed.

Lemma zip_with_length_n (f : Q -> Q -> Q) (u v : list Q) (n : nat) :
  length u = n -> length v = n -> length (zip_with f u v) = n.
Proof.
  intros Hu Hv. rewrite zip_with_length; congruence.
Qed.

Lemma zip_with_nth (f : Q -> Q -> Q) (u v : list Q) (d : nat) :
  length u = length v -> (d < length u)%nat ->
  nth d (zip_with f u v) 0 = f (nth d u 0) (nth d v 0).
Proof.
  revert v d. induction u as [|x u IH]; intros [|y v] d H Hd; simpl in *;
    try discriminate; [lia|].
  destruct d as [|d]; [reflexivity|]. apply IH; lia.
Qed.

Lemma index_nth (a : list Q) (d : nat) :
  (d < length a)%nat -> index a d = Ok (nth d a 0).
Proof.
  intros H. unfold index.
  destruct (nth_error a d) as [x|] eqn:E.
  - f_equal. symmetry. now apply nth_error_nth.
  - apply nth_error_None in E. lia.
Qed.

Lemma clip_vec_same (delta_p dmin dmax : list Q) :
  length dmin = length delta_p -> length dmax = length delta_p ->
  clip_vec delta_p dmin dmax
  = Ok (zip_with Qmin (zip_with Qmax delta_p dmin) dmax).
Proof.
  intros H1 H2. unfold clip_vec.
  rewrite broadcast2_same by congruence. simpl.
  apply broadcast2_same. rewrite zip_with_length; congruence.
Qed.

(** ** Lists indexed by [range(n)] *)

Lemma Forall2_seq_nth {B : Type} (P : nat -> B -> Prop) (a n : nat)
    (r : list B) (dflt : B) :
  Forall2 P (seq a n) r <->
  length r = n /\ forall i, (i < n)%nat -> P (a + i)%nat (nth i r dflt).
Proof.
  revert a r. induction n as [|n IH]; intros a r; simpl.
  - split.
    + intros H. inversion H. split; [reflexivity | intros i Hi; lia].
    + intros [H _]. destruct r; [constructor | discriminate].
  - split.
    + intros H. inversion H as [|x y l r' Hxy Hrest]; subst.
      apply IH in Hrest as [Hlen Hnth]. split; [simpl; congruence|].
      intros [|i] Hi; simpl.
      * now rewrite Nat.add_0_r.
      * rewrite Nat.add_succ_r. apply (Hnth i). lia.
    + intros [Hlen Hnth]. destruct r as [|y r]; [discriminate|].
      constructor.
      * specialize (Hnth 0%nat). rewrite Nat.add_0_r in Hnth. apply Hnth. lia.
      * apply IH. split; [simpl in Hlen; lia|].
        intros i Hi. specialize (Hnth (S i)). rewrite Nat.add_succ_r in Hnth.
        apply Hnth. lia.
Qed.

Lemma mapM_seq_Ok {B : Type} (f : nat -> result B) (n : nat) (r : list B)
    (dflt : B) :
  mapM f (seq 0 n) = Ok r <->
  length r = n /\ forall i, (i < n)%nat -> f i = Ok (nth i r dflt).
Proof.
  rewrite mapM_Ok_Forall2.
  apply (Forall2_seq_nth (fun x y => f x = Ok y) 0 n r dflt).
Qed.

Lemma mapM_total {A B : Type} (f : A -> result B) (l : list A) :
  (forall x, In x l -> exists y, f x = Ok y) -> exists r, mapM f l = Ok r.
Proof.
  induction l as [|a l IH]; intros H; simpl.
  - now exists [].
  - destruct (H a (or_introl eq_refl)) as [b Hb].
    destruct IH as [bs Hbs]; [intros x Hx; apply H; now right|].
    exists (b :: bs). rewrite Hb. simpl. rewrite Hbs. reflexivity.
Qed.

Lemma mapM_ext_in {A B : Type} (f g : A -> result B) (l : list A) :
  (forall x, In x l -> f x = g x) -> mapM f l = mapM g l.
Proof.
  induction l as [|a l IH]; intros H; simpl; [reflexivity|].
  rewrite (H a (or_introl eq_refl)), IH; [reflexivity|].
  intros x Hx. apply H. now right.
Qed.

(** The first failing element decides the exception. *)
Lemma mapM_Raise {A B : Type} (f : A -> result B) (l : list A) (e : exn) :
  (forall x, In x l -> (exists y, f x = Ok y) \/ f x = Raise e) ->
  (exists x, In x l /\ f x = Raise e) ->
  mapM f l = Raise e.
Proof.
  induction l as [|a l IH]; intros Hall (x & Hx & Hfx); [destruct Hx|].
  simpl. destruct (Hall a (or_introl eq_refl)) as [[b Hb]|Hb].
  - rewrite Hb. simpl. rewrite IH; [reflexivity| |].
    + intros z Hz. apply Hall. now right.
    + destruct Hx as [->|Hx]; [congruence|]. now exists x.
  - rewrite Hb. reflexivity.
Qed.

(** ** The column loop *)

Lemma column_loop_Ok (body : nat -> result (list pair_t)) (ks : list nat)
    (acc out : list pair_t) :
  column_loop body ks acc = Ok out <->
  exists groups,
    Forall2 (fun k g => body k = Ok g) ks groups /\ out = acc ++ concat groups.
Proof.
  revert acc. induction ks as [|k ks IH]; intros acc; simpl.
  - split.
    + intros H. injection H as <-. exists []. split; [constructor|].
      simpl. now rewrite app_nil_r.
    + intros (groups & HF & ->). inversion HF. simpl. now rewrite app_nil_r.
  - split.
    + intros H. apply bind_Ok in H as (g & Hg & H).
      apply IH in H as (groups & HF & ->).
      exists (g :: groups). split; [now constructor|].
      simpl. now rewrite app_assoc.
    + intros (groups & HF & ->).
      inversion HF as [|x g l gs Hg Hrest]; subst.
      rewrite Hg. simpl. apply IH. exists gs. split; [assumption|].
      simpl. now rewrite app_assoc.
Qed.

Lemma column_loop_Raise (body : nat -> result (list pair_t)) (ks : list nat)
    (acc : list pair_t) (e : exn) :
  (forall k, In k ks -> (exists g, body k = Ok g) \/ body k = Raise e) ->
  (exists k, In k ks /\ body k = Raise e) ->
  column_loop body ks acc = Raise e.
Proof.
  revert acc. induction ks as [|a ks IH]; intros acc Hall (k & Hk & Hbk);
    [destruct Hk|].
  simpl. destruct (Hall a (or_introl eq_refl)) as [[g Hg]|Hg].
  - rewrite Hg. simpl. apply IH.
    + intros z Hz. apply Hall. now right.
    + destruct Hk as [->|Hk]; [congruence|]. now exists k.
  - rewrite Hg. reflexivity.
Qed.

(** ** The raveled mesh is the Cartesian product *)

Lemma unravel_shift (rest : list (list Q)) (j r : nat) :
  unravel (j * mesh_size rest + r) rest = unravel r rest.
Proof.
  revert j. induction rest as [|b rest IH]; intros j; simpl; [reflexivity|].
  f_equal.
  - destruct (mesh_size rest) as [|M'] eqn:EM; [reflexivity|].
    replace (j * (length b * S M') + r)%nat
      with ((j * length b) * S M' + r)%nat by lia.
    rewrite Nat.div_add_l by lia.
    rewrite (Nat.add_comm (j * length b)), Nat.Div0.mod_add. reflexivity.
  - replace (j * (length b * mesh_size rest) + r)%nat
      with ((j * length b) * mesh_size rest + r)%nat by lia.
    apply IH.
Qed.

Lemma seq_offset (a n : nat) : seq a n = map (fun i => (a + i)%nat) (seq 0 n).
Proof.
  revert a. induction n as [|n IH]; intros a; simpl; [reflexivity|].
  rewrite Nat.add_0_r. f_equal.
  rewrite (IH (S a)), (IH 1%nat), map_map.
  apply map_ext. intros i. lia.
Qed.

Lemma mesh_blocks (a : list Q) (rest : list (list Q)) :
  (0 < mesh_size rest)%nat ->
  map (fun i => nth (i / mesh_size rest) a 0 :: unravel i rest)
      (seq 0 (length a * mesh_size rest))
  = flat_map
      (fun x => map (cons x)
                  (map (fun r => unravel r rest) (seq 0 (mesh_size rest))))
      a.
Proof.
  intros HM. set (M := mesh_size rest) in *.
  induction a as [|x a IH]; [reflexivity|].
  change (length (x :: a) * M)%nat with (M + length a * M)%nat.
  rewrite seq_app, map_app. simpl flat_map. f_equal.
  - rewrite map_map. apply map_ext_in. intros i Hi. apply in_seq in Hi.
    rewrite Nat.div_small by lia. reflexivity.
  - rewrite <- IH. simpl. rewrite (seq_offset M), map_map.
    apply map_ext. intros i.
    replace (M + i)%nat with (1 * M + i)%nat by lia.
    rewrite Nat.div_add_l by lia. f_equal.
    apply (unravel_shift rest 1 i).
Qed.

Lemma flat_map_nil {A B : Type} (f : A -> list B) (l : list A) :
  (forall x, f x = []) -> flat_map f l = [].
Proof.
  intros H. induction l as [|x l IH]; simpl; [reflexivity|].
  now rewrite H, IH.
Qed.

Lemma ravel_cartesian (axes : list (list Q)) :
  map (fun i => unravel i axes) (seq 0 (mesh_size axes)) = cartesian axes.
Proof.
  induction axes as [|a rest IH]; [reflexivity|].
  simpl. destruct (mesh_size rest) as [|M'] eqn:EM.
  - rewrite Nat.mul_0_r. simpl in IH. rewrite <- IH. simpl.
    symmetry. now apply flat_map_nil.
  - rewrite <- IH, <- EM.
    rewrite <- mesh_blocks by lia.
    apply map_ext_in. intros i Hi. apply in_seq in Hi. f_equal.
    rewrite Nat.mod_small; [reflexivity|].
    apply Nat.Div0.div_lt_upper_bound. lia.
Qed.

Lemma mesh_size_product (axes : list (list Q)) :
  mesh_size axes = fold_right Nat.mul 1%nat (map (@length Q) axes).
Proof.
  induction axes as [|a rest IH]; simpl; [reflexivity | now rewrite IH].
Qed.

Lemma cartesian_length (axes : list (list Q)) :
  length (cartesian axes) = mesh_size axes.
Proof.
  rewrite <- ravel_cartesian, length_map, length_seq. reflexivity.
Qed.

Lemma in_cartesian (axes : list (list Q)) (c : list Q) :
  In c (cartesian axes) <-> Forall2 (fun x a => In x a) c axes.
Proof.
  revert c. induction axes as [|a rest IH]; intros c; simpl.
  - split.
    + intros [<-|[]]. constructor.
    + intros H. inversion H. now left.
  - rewrite in_flat_map. split.
    + intros (x & Hx & Hc). apply in_map_iff in Hc as (c' & <- & Hc').
      constructor; [assumption | now apply IH].
    + intros H. inversion H as [|x a' c' rest' Hx Hc']; subst.
      exists x. split; [assumption|]. apply in_map, IH, Hc'.
Qed.

Lemma delta_combinations_Ok (axes : list (list Q)) :
  axes <> [] -> delta_combinations axes = Ok (cartesian axes).
Proof.
  intros H. unfold delta_combinations. rewrite ravel_cartesian.
  destruct axes; [contradiction | reflexivity].
Qed.

(** ** Envelope and columns *)

Lemma Forall2_nth {A B : Type} (P : A -> B -> Prop) (l : list A) (r : list B)
    (da : A) (db : B) :
  Forall2 P l r ->
  length l = length r /\
  forall d, (d < length l)%nat -> P (nth d l da) (nth d r db).
Proof.
  induction 1 as [|x y l r Hxy _ [IHlen IHnth]]; simpl.
  - split; [reflexivity | intros d Hd; lia].
  - split; [congruence|]. intros [|d] Hd; [assumption|]. apply IHnth. lia.
Qed.

Lemma fold_min_le_init (xs : list Q) (x : Q) : fold_left Qmin xs x <= x.
Proof.
  revert x. induction xs as [|a xs IH]; intros x; simpl; [apply Qle_refl|].
  eapply Qle_trans; [apply IH | apply Q.le_min_l].
Qed.

Lemma fold_min_le_in (xs : list Q) (x y : Q) :
  In y xs -> fold_left Qmin xs x <= y.
Proof.
  revert x. induction xs as [|a xs IH]; intros x []; simpl.
  - subst. eapply Qle_trans; [apply fold_min_le_init | apply Q.le_min_r].
  - now apply IH.
Qed.

Lemma fold_max_ge_init (xs : list Q) (x : Q) : x <= fold_left Qmax xs x.
Proof.
  revert x. induction xs as [|a xs IH]; intros x; simpl; [apply Qle_refl|].
  eapply Qle_trans; [apply Q.le_max_l | apply IH].
Qed.

Lemma fold_max_ge_in (xs : list Q) (x y : Q) :
  In y xs -> y <= fold_left Qmax xs x.
Proof.
  revert x. induction xs as [|a xs IH]; intros x []; simpl.
  - subst. eapply Qle_trans; [apply Q.le_max_r | apply fold_max_ge_init].
  - now apply IH.
Qed.

Lemma row_min_spec (row : list Q) :
  row <> [] ->
  exists mn, row_min row = Ok mn /\ forall y, In y row -> mn <= y.
Proof.
  destruct row as [|x xs]; [contradiction|]. intros _.
  exists (fold_left Qmin xs x). split; [reflexivity|].
  intros y [<-|Hy]; [apply fold_min_le_init | now apply fold_min_le_in].
Qed.

Lemma row_max_spec (row : list Q) :
  row <> [] ->
  exists mx, row_max row = Ok mx /\ forall y, In y row -> y <= mx.
Proof.
  destruct row as [|x xs]; [contradiction|]. intros _.
  exists (fold_left Qmax xs x). split; [reflexivity|].
  intros y [<-|Hy]; [apply fold_max_ge_init | now apply fold_max_ge_in].
Qed.

Lemma column_length (params : list (list Q)) (k : nat) :
  length (column params k) = length params.
Proof. apply length_map. Qed.

Lemma column_nth (params : list (list Q)) (k d : nat) :
  nth d (column params k) 0 = entry params d k.
Proof.
  unfold column, entry.
  transitivity (nth d (map (fun row => nth k row 0) params)
                  ((fun row => nth k row 0) [])).
  - f_equal. destruct k; reflexivity.
  - apply (map_nth (fun row => nth k row 0)).
Qed.

Lemma row_min_bound (row : list Q) (mn y : Q) :
  row_min row = Ok mn -> In y row -> mn <= y.
Proof.
  intros H Hy. destruct (row_min_spec row) as (mn' & Hmn & Hb).
  - intros ->. destruct Hy.
  - rewrite H in Hmn. injection Hmn as <-. now apply Hb.
Qed.

Lemma row_max_bound (row : list Q) (mx y : Q) :
  row_max row = Ok mx -> In y row -> y <= mx.
Proof.
  intros H Hy. destruct (row_max_spec row) as (mx' & Hmx & Hb).
  - intros ->. destruct Hy.
  - rewrite H in Hmx. injection Hmx as <-. now apply Hb.
Qed.

(** ** One column *)

Lemma column_points_Ok (params : list (list Q)) (dmin dmax pmin pmax : list Q)
    (step : Q) (k : nat) (g : list pair_t) :
  column_points params dmin dmax pmin pmax step k = Ok g <->
  exists lo hi axes,
    delta_min_k dmin dmax pmin (column params k) = Ok lo /\
    delta_max_k dmax pmax (column params k) = Ok hi /\
    delta_ranges lo hi step (length params) = Ok axes /\
    axes <> [] /\
    Forall2 (fun combo pr =>
               fst pr = column params k /\
               clip_vec combo dmin dmax = Ok (snd pr))
            (cartesian axes) g.
Proof.
  unfold column_points. split.
  - intros H.
    apply bind_Ok in H as (lo & Hlo & H).
    apply bind_Ok in H as (hi & Hhi & H).
    apply bind_Ok in H as (axes & Hax & H).
    apply bind_Ok in H as (combos & Hco & H).
    assert (Hne : axes <> []).
    { intros ->. discriminate. }
    rewrite (delta_combinations_Ok axes Hne) in Hco. injection Hco as <-.
    exists lo, hi, axes. repeat (split; [assumption|]).
    apply mapM_Ok_Forall2 in H.
    eapply Forall2_impl; [|exact H].
    intros combo [p c] Hpc. apply bind_Ok in Hpc as (c' & Hc' & Hpc).
    injection Hpc as <- <-. now split.
  - intros (lo & hi & axes & Hlo & Hhi & Hax & Hne & HF).
    rewrite Hlo. cbn [bind]. rewrite Hhi. cbn [bind].
    rewrite Hax. cbn [bind].
    rewrite (delta_combinations_Ok axes Hne). cbn [bind].
    apply mapM_Ok_Forall2.
    eapply Forall2_impl; [|exact HF].
    intros combo [p c] [Hp Hc]. simpl in *. subst p.
    rewrite Hc. reflexivity.
Qed.

Section Envelope.

Variables (params : list (list Q)) (pmin pmax : list Q) (R K : nat).
Hypothesis Hrect : rectangular params R K.
Hypothesis Hpmin : mapM row_min params = Ok pmin.
Hypothesis Hpmax : mapM row_max params = Ok pmax.

Lemma entry_in_row (d k : nat) :
  (d < R)%nat -> (k < K)%nat -> In (entry params d k) (nth d params []).
Proof.
  intros Hd Hk. destruct Hrect as [Hlen Hrows].
  unfold entry. apply nth_In.
  rewrite Forall_forall in Hrows. rewrite (Hrows (nth d params [])); [exact Hk|].
  apply nth_In. lia.
Qed.

Lemma envelope_length : length pmin = R /\ length pmax = R.
Proof.
  destruct Hrect as [Hlen _].
  apply mapM_length in Hpmin. apply mapM_length in Hpmax. lia.
Qed.

Lemma envelope_bounds (d k : nat) :
  (d < R)%nat -> (k < K)%nat ->
  nth d pmin 0 <= entry params d k <= nth d pmax 0.
Proof.
  intros Hd Hk. destruct Hrect as [Hlen _].
  pose proof (entry_in_row d k Hd Hk) as Hin.
  apply mapM_Ok_Forall2 in Hpmin. apply mapM_Ok_Forall2 in Hpmax.
  apply (Forall2_nth _ _ _ [] 0) in Hpmin as [_ Hmn].
  apply (Forall2_nth _ _ _ [] 0) in Hpmax as [_ Hmx].
  split.
  - eapply row_min_bound; [apply Hmn; lia | exact Hin].
  - eapply row_max_bound; [apply Hmx; lia | exact Hin].
Qed.

End Envelope.

Section WellShaped.

Variables (params : list (list Q)) (dmin dmax pmin pmax : list Q).
Variables (R K : nat).
Hypothesis Hrect : rectangular params R K.
Hypothesis Hdmin : length dmin = R.
Hypothesis Hdmax : length dmax = R.
Hypothesis Hpmin : mapM row_min params = Ok pmin.
Hypothesis Hpmax : mapM row_max params = Ok pmax.

Lemma intervals (k : nat) :
  exists lo hi,
    delta_min_k dmin dmax pmin (column params k) = Ok lo /\
    delta_max_k dmax pmax (column params k) = Ok hi /\
    length lo = R /\ length hi = R /\
    forall d, (d < R)%nat ->
      nth d lo 0
      = delta_min_formula (nth d dmin 0) (nth d dmax 0) (nth d pmin 0)
          (entry params d k) /\
      nth d hi 0
      = delta_max_formula (nth d dmax 0) (nth d pmax 0) (entry params d k).
Proof.
  destruct (envelope_length params pmin pmax R K Hrect Hpmin Hpmax)
    as [Lmin Lmax].
  destruct Hrect as [Hlen _].
  assert (Lcol : length (column params k) = R)
    by (rewrite column_length; exact Hlen).
  assert (Lopp : length (map Qopp dmax) = R)
    by (rewrite length_map; exact Hdmax).
  set (col := column params k) in *.
  set (a1 := zip_with Qminus pmin col).
  set (b1 := zip_with Qmax a1 (map Qopp dmax)).
  set (a2 := zip_with Qminus pmax col).
  set (b2 := zip_with Qmin a2 dmax).
  assert (La1 : length a1 = R) by (apply zip_with_length_n; assumption).
  assert (Lb1 : length b1 = R) by (apply zip_with_length_n; assumption).
  assert (La2 : length a2 = R) by (apply zip_with_length_n; assumption).
  assert (Lb2 : length b2 = R) by (apply zip_with_length_n; assumption).
  exists (zip_with Qmax dmin b1), (zip_with Qmin dmax b2).
  split; [|split].
  - unfold delta_min_k.
    rewrite (broadcast2_same Qminus pmin col) by congruence. cbn [bind].
    fold a1. rewrite (broadcast2_same Qmax a1) by congruence. cbn [bind].
    fold b1. apply broadcast2_same. congruence.
  - unfold delta_max_k.
    rewrite (broadcast2_same Qminus pmax col) by congruence. cbn [bind].
    fold a2. rewrite (broadcast2_same Qmin a2) by congruence. cbn [bind].
    fold b2. apply broadcast2_same. congruence.
  - split; [apply zip_with_length_n; assumption|].
    split; [apply zip_with_length_n; assumption|].
    intros d Hd. unfold delta_min_formula, delta_max_formula.
    rewrite (zip_with_nth Qmax dmin b1), (zip_with_nth Qmin dmax b2)
      by (congruence || lia).
    unfold b1, b2.
    rewrite (zip_with_nth Qmax a1), (zip_with_nth Qmin a2)
      by (congruence || lia).
    unfold a1, a2.
    rewrite (zip_with_nth Qminus pmin col), (zip_with_nth Qminus pmax col)
      by (congruence || lia).
    unfold col. rewrite column_nth.
    replace (nth d (map Qopp dmax) 0) with (- nth d dmax 0);
      [split; reflexivity|].
    symmetry. apply (map_nth Qopp dmax 0 d).
Qed.

Lemma intervals_at (k : nat) :
  exists lo hi,
    delta_min_k dmin dmax pmin (column params k) = Ok lo /\
    delta_max_k dmax pmax (column params k) = Ok hi /\
    length lo = R /\ length hi = R /\
    forall d, (d < R)%nat ->
      nth d lo 0 = lo_at params dmin dmax pmin k d /\
      nth d hi 0 = hi_at params dmax pmax k d.
Proof. exact (intervals k). Qed.

End WellShaped.

(** ** The axes of one column *)

Lemma delta_ranges_pointwise (lo hi : list Q) (step : Q) (R : nat) :
  length lo = R -> length hi = R ->
  delta_ranges lo hi step R
  = mapM (fun d => range_points (nth d lo 0) (nth d hi 0) step) (seq 0 R).
Proof.
  intros Hlo Hhi. unfold delta_ranges.
  apply mapM_ext_in. intros d Hd. apply in_seq in Hd.
  rewrite !index_nth by lia. reflexivity.
Qed.

Lemma delta_ranges_Ok (lo hi : list Q) (step : Q) (R : nat)
    (axes : list (list Q)) :
  length lo = R -> length hi = R ->
  (delta_ranges lo hi step R = Ok axes <->
   length axes = R /\
   forall d, (d < R)%nat ->
     range_points (nth d lo 0) (nth d hi 0) step = Ok (nth d axes [])).
Proof.
  intros Hlo Hhi. rewrite (delta_ranges_pointwise lo hi step R Hlo Hhi).
  apply mapM_seq_Ok.
Qed.

Lemma delta_ranges_total (lo hi : list Q) (step : Q) (R : nat) :
  length lo = R -> length hi = R ->
  (forall d, (d < R)%nat ->
     exists pts, range_points (nth d lo 0) (nth d hi 0) step = Ok pts) ->
  exists axes, delta_ranges lo hi step R = Ok axes.
Proof.
  intros Hlo Hhi H. rewrite (delta_ranges_pointwise lo hi step R Hlo Hhi).
  apply mapM_total. intros d Hd. apply in_seq in Hd. apply H. lia.
Qed.

Lemma delta_ranges_Raise (lo hi : list Q) (step : Q) (R : nat) :
  length lo = R -> length hi = R -> 0 < step ->
  (exists d, (d < R)%nat /\ step <= nth d lo 0 - nth d hi 0) ->
  delta_ranges lo hi step R = Raise IndexError.
Proof.
  intros Hlo Hhi Hs (d & Hd & Hgap).
  rewrite (delta_ranges_pointwise lo hi step R Hlo Hhi).
  apply mapM_Raise.
  - intros x _. destruct (range_points_total (nth x lo 0) (nth x hi 0) step Hs)
      as [(pts & Hp & _)|Hp]; [left; now exists pts | now right].
  - exists d. split; [apply in_seq; lia|].
    now apply range_points_inverted_large.
Qed.

Lemma cartesian_nonempty (axes : list (list Q)) :
  Forall (fun a => a <> []) axes -> cartesian axes <> [].
Proof.
  intros H Hnil. apply (f_equal (@length _)) in Hnil.
  rewrite cartesian_length in Hnil. simpl in Hnil.
  induction H as [|a rest Ha _ IH]; simpl in Hnil; [discriminate|].
  destruct a; [contradiction|]. simpl in Hnil.
  apply IH. lia.
Qed.

Lemma Forall2_map_r {A B : Type} (P : A -> B -> Prop) (f : A -> B)
    (l : list A) :
  (forall x, In x l -> P x (f x)) -> Forall2 P l (map f l).
Proof.
  induction l as [|a l IH]; intros H; simpl; constructor.
  - apply H. now left.
  - apply IH. intros x Hx. apply H. now right.
Qed.

Lemma combo_length (axes : list (list Q)) (c : list Q) :
  In c (cartesian axes) -> length c = length axes.
Proof.
  intros H. apply in_cartesian in H.
  induction H; simpl; congruence.
Qed.

Lemma range_points_completes (lo hi step : Q) :
  0 < step -> lo - hi < step ->
  exists pts, range_points lo hi step = Ok pts /\ pts <> [].
Proof.
  intros Hs Hgap. destruct (Qlt_le_dec hi lo) as [Hinv|Hle].
  - exists [hi]. split; [now apply range_points_inverted_small | discriminate].
  - destruct (range_points_feasible_spec lo hi step Hs Hle)
      as (first & rest & Hrp & _).
    exists (first :: rest). split; [exact Hrp | discriminate].
Qed.

Lemma bounded_cases (n : nat) (P S : nat -> Prop) :
  (forall d, (d < n)%nat -> P d \/ S d) ->
  (forall d, (d < n)%nat -> P d) \/ (exists d, (d < n)%nat /\ S d).
Proof.
  induction n as [|n IH]; intros H.
  - left. intros d Hd. lia.
  - destruct IH as [Hall|(d & Hd & HS)].
    + intros d Hd. apply H. lia.
    + destruct (H n (Nat.lt_succ_diag_r n)) as [Hn|Hn].
      * left. intros d Hd. apply Nat.lt_succ_r, Nat.lt_eq_cases in Hd as [Hd| ->];
          [now apply Hall | exact Hn].
      * right. exists n. split; [lia | exact Hn].
    + right. exists d. split; [lia | exact HS].
Qed.

Lemma envelope_exists (params : list (list Q)) (R K : nat) :
  rectangular params R K -> (0 < K)%nat ->
  exists pmin pmax,
    mapM row_min params = Ok pmin /\ mapM row_max params = Ok pmax.
Proof.
  intros [_ Hrows] HK. rewrite Forall_forall in Hrows.
  assert (Hne : forall row, In row params -> row <> []).
  { intros row Hin ->. specialize (Hrows [] Hin). simpl in Hrows. lia. }
  destruct (mapM_total row_min params) as [pmin Hpmin].
  { intros row Hin. destruct (row_min_spec row (Hne row Hin)) as (mn & Hmn & _).
    now exists mn. }
  destruct (mapM_total row_max params) as [pmax Hpmax].
  { intros row Hin. destruct (row_max_spec row (Hne row Hin)) as (mx & Hmx & _).
    now exists mx. }
  now exists pmin, pmax.
Qed.

Lemma rectangular_shape1 (params : list (list Q)) (R K : nat) :
  rectangular params R K -> (0 < R)%nat -> shape1 params = K.
Proof.
  intros [Hlen Hrows] HR. destruct params as [|row rest]; simpl in *; [lia|].
  now inversion Hrows.
Qed.

(** ** Outcome of a call on well-shaped inputs *)

Section Outcome.

Variables (params : list (list Q)) (dmin dmax pmin pmax : list Q).
Variables (step : Q) (R K : nat).
Hypothesis Hrect : rectangular params R K.
Hypothesis HR : (0 < R)%nat.
Hypothesis Hdmin : length dmin = R.
Hypothesis Hdmax : length dmax = R.
Hypothesis Hpmin : mapM row_min params = Ok pmin.
Hypothesis Hpmax : mapM row_max params = Ok pmax.
Hypothesis Hstep : 0 < step.

(** The pairs of a column whose axes are known. *)
Lemma column_points_of_axes (k : nat) (lo hi : list Q) (axes : list (list Q)) :
  delta_min_k dmin dmax pmin (column params k) = Ok lo ->
  delta_max_k dmax pmax (column params k) = Ok hi ->
  delta_ranges lo hi step R = Ok axes ->
  length axes = R ->
  column_points params dmin dmax pmin pmax step k
  = Ok (map (fun combo =>
               (column params k,
                zip_with Qmin (zip_with Qmax combo dmin) dmax))
            (cartesian axes)).
Proof.
  intros Hlo Hhi Hax Lax.
  apply column_points_Ok. exists lo, hi, axes.
  destruct Hrect as [Hlen _]. rewrite Hlen.
  repeat (split; [assumption|]).
  split; [intros ->; simpl in Lax; lia|].
  apply Forall2_map_r. intros combo Hin. split; [reflexivity|].
  simpl. apply combo_length in Hin. apply clip_vec_same; congruence.
Qed.

Lemma column_points_completes (k : nat) :
  (forall d, (d < R)%nat -> lo_at params dmin dmax pmin k d - hi_at params dmax pmax k d < step) ->
  exists g, column_points params dmin dmax pmin pmax step k = Ok g /\ g <> [].
Proof.
  intros Hgap.
  destruct (intervals_at params dmin dmax pmin pmax R K Hrect Hdmin Hdmax
              Hpmin Hpmax k) as (lo & hi & Hlo & Hhi & Llo & Lhi & Hnth).
  assert (Hpts : forall d, (d < R)%nat ->
            exists pts, range_points (nth d lo 0) (nth d hi 0) step = Ok pts
                        /\ pts <> []).
  { intros d Hd. destruct (Hnth d Hd) as [-> ->].
    apply range_points_completes; [exact Hstep | now apply Hgap]. }
  destruct (delta_ranges_total lo hi step R Llo Lhi) as [axes Hax].
  { intros d Hd. destruct (Hpts d Hd) as (pts & Hp & _). now exists pts. }
  pose proof Hax as Hax'.
  apply (delta_ranges_Ok lo hi step R axes Llo Lhi) in Hax' as [Lax Hnthax].
  eexists. split; [apply (column_points_of_axes k lo hi axes); assumption|].
  intros Hnil. apply map_eq_nil in Hnil. revert Hnil.
  apply cartesian_nonempty, Forall_forall. intros a Ha.
  apply (In_nth _ _ []) in Ha as (d & Hd & <-).
  rewrite Lax in Hd. destruct (Hpts d Hd) as (pts & Hp & Hne).
  rewrite (Hnthax d Hd) in Hp. injection Hp as <-. exact Hne.
Qed.

Lemma column_points_fails (k : nat) :
  (exists d, (d < R)%nat /\ step <= lo_at params dmin dmax pmin k d - hi_at params dmax pmax k d) ->
  column_points params dmin dmax pmin pmax step k = Raise IndexError.
Proof.
  intros (d & Hd & Hgap).
  destruct (intervals_at params dmin dmax pmin pmax R K Hrect Hdmin Hdmax
              Hpmin Hpmax k) as (lo & hi & Hlo & Hhi & Llo & Lhi & Hnth).
  unfold column_points. rewrite Hlo. cbn [bind]. rewrite Hhi. cbn [bind].
  destruct Hrect as [Hlen _]. rewrite Hlen.
  rewrite (delta_ranges_Raise lo hi step R Llo Lhi Hstep); [reflexivity|].
  exists d. split; [exact Hd|]. destruct (Hnth d Hd) as [-> ->]. exact Hgap.
Qed.

Lemma column_points_outcome (k : nat) :
  (exists g, column_points params dmin dmax pmin pmax step k = Ok g /\ g <> [])
  \/ column_points params dmin dmax pmin pmax step k = Raise IndexError.
Proof.
  destruct (bounded_cases R (fun d => lo_at params dmin dmax pmin k d - hi_at params dmax pmax k d < step)
              (fun d => step <= lo_at params dmin dmax pmin k d - hi_at params dmax pmax k d)) as [Hall|Hex].
  - intros d _. destruct (Qlt_le_dec (lo_at params dmin dmax pmin k d - hi_at params dmax pmax k d) step); [now left | now right].
  - left. now apply column_points_completes.
  - right. now apply column_points_fails.
Qed.

Lemma polytope_grid_loop :
  polytope_grid params dmin dmax step
  = column_loop (column_points params dmin dmax pmin pmax step) (seq 0 K) [].
Proof.
  unfold polytope_grid. rewrite Hpmin. cbn [bind]. rewrite Hpmax. cbn [bind].
  now rewrite (rectangular_shape1 params R K Hrect HR).
Qed.

(** The call returns when no interval is inverted by a whole step. *)
Lemma polytope_grid_completes :
  (forall k d, (k < K)%nat -> (d < R)%nat -> lo_at params dmin dmax pmin k d - hi_at params dmax pmax k d < step) ->
  exists groups,
    polytope_grid params dmin dmax step = Ok (concat groups) /\
    length groups = K /\
    forall k, (k < K)%nat ->
      column_points params dmin dmax pmin pmax step k = Ok (nth k groups [])
      /\ nth k groups [] <> [].
Proof.
  intros Hgap.
  destruct (mapM_total (column_points params dmin dmax pmin pmax step) (seq 0 K))
    as [groups Hgroups].
  { intros k Hk. apply in_seq in Hk.
    destruct (column_points_completes k) as (g & Hg & _).
    - intros d Hd. apply Hgap; [lia | exact Hd].
    - now exists g. }
  exists groups. split.
  - rewrite polytope_grid_loop. apply column_loop_Ok. exists groups.
    split; [now apply mapM_Ok_Forall2 | reflexivity].
  - apply (mapM_seq_Ok _ K groups []) in Hgroups as [Hlen Hnth].
    split; [exact Hlen|]. intros k Hk. split; [now apply Hnth|].
    destruct (column_points_completes k) as (g & Hg & Hne).
    + intros d Hd. now apply Hgap.
    + rewrite (Hnth k Hk) in Hg. injection Hg as ->. exact Hne.
Qed.

(** The call fails when some interval is inverted by a whole step. *)
Lemma polytope_grid_fails :
  (exists k d, (k < K)%nat /\ (d < R)%nat /\ step <= lo_at params dmin dmax pmin k d - hi_at params dmax pmax k d) ->
  polytope_grid params dmin dmax step = Raise IndexError.
Proof.
  intros (k & d & Hk & Hd & Hgap).
  rewrite polytope_grid_loop. apply column_loop_Raise.
  - intros j _. destruct (column_points_outcome j) as [(g & Hg & _)|Hg];
      [left; now exists g | now right].
  - exists k. split; [apply in_seq; lia|].
    apply column_points_fails. now exists d.
Qed.

End Outcome.

(** ** Rank-2 inputs reach the body unchanged *)

Lemma as_vector_of_vector (v : list Q) : as_vector (of_vector v) = Some v.
Proof.
  unfold as_vector, of_vector.
  induction v as [|x v IH]; simpl; [reflexivity|].
  now rewrite IH.
Qed.

Lemma ndim_of_vector (v : list Q) : ndim (of_vector v) = 1%nat.
Proof. destruct v; reflexivity. Qed.

Lemma shape_of_vector (v : list Q) : shape (of_vector v) = [length v].
Proof.
  destruct v; simpl; [reflexivity|]. now rewrite length_map.
Qed.

Lemma as_matrix_of_matrix (m : list (list Q)) :
  m <> [] -> as_matrix (of_matrix m) = Some m.
Proof.
  intros Hne. unfold as_matrix, of_matrix.
  assert (H : option_all (map as_vector (map of_vector m)) = Some m).
  { clear Hne. induction m as [|r m IH]; [reflexivity|].
    cbn [map option_all]. rewrite as_vector_of_vector.
    cbn [option_all]. now rewrite IH. }
  destruct m as [|r m]; [contradiction|]. exact H.
Qed.

Lemma consistent_polytope_nd_matrix (m : list (list Q)) (dmin dmax : list Q)
    (step : Q) :
  m <> [] ->
  consistent_polytope_nd (of_matrix m) (of_vector dmin) (of_vector dmax) step
  = Some (polytope_grid m dmin dmax step).
Proof.
  intros Hne. unfold consistent_polytope_nd, normalize.
  assert (Hnd : Nat.eqb (ndim (of_matrix m)) 1 = false).
  { destruct m as [|r m]; [contradiction|].
    unfold of_matrix. cbn [map ndim]. now rewrite ndim_of_vector. }
  rewrite Hnd.
  rewrite (as_matrix_of_matrix m Hne).
  assert (Hb : forall v, as_bound (of_vector v) = Some v)
    by (intros v; apply as_vector_of_vector).
  rewrite !Hb.
  destruct m; [contradiction | reflexivity].
Qed.

Lemma polytope_grid_no_columns (params : list (list Q)) (dmin dmax : list Q)
    (step : Q) (R : nat) :
  rectangular params R 0 -> (0 < R)%nat ->
  polytope_grid params dmin dmax step = Raise ValueError.
Proof.
  intros [Hlen Hrows] HR.
  destruct params as [|row rows]; [simpl in Hlen; lia|].
  inversion Hrows as [|x l Hrow _]; subst.
  destruct row; [reflexivity | discriminate].
Qed.

Lemma consistent_polytope_nd_no_rows (dmin dmax : list Q) (step : Q) :
  consistent_polytope_nd (of_matrix []) (of_vector dmin) (of_vector dmax) step
  = None.
Proof. reflexivity. Qed.

(** * The specification's claims *)

(** ** Per-dimension discretization *)

(** C2 (boundary inclusion): for [lo <= hi] and a positive step the
    discretized axis is non-empty, its first element equals [lo] and its
    last element equals [hi], whether or not [hi - lo] is a multiple of
    the step. *)
Theorem range_points_boundary_inclusion (lo hi step : Q) :
  0 < step -> lo <= hi ->
  exists first rest,
    range_points lo hi step = Ok (first :: rest) /\
    first == lo /\
    last rest first == hi.
Proof.
  intros Hs Hle.
  destruct (range_points_feasible_spec lo hi step Hs Hle)
    as (first & rest & Hrp & Hfirst & Hlast & _).
  now exists first, rest.
Qed.

Lemma range_points_boundary_inclusion_witness :
  0 < 3 # 10 /\ 0 <= 1 /\
  exists first rest,
    range_points 0 1 (3 # 10) = Ok (first :: rest) /\
    first == 0 /\
    last rest first == 1.
Proof.
  split; [reflexivity|]. split; [unfold Qle; simpl; lia|].
  apply (range_points_boundary_inclusion 0 1 (3 # 10)).
  - reflexivity.
  - unfold Qle; simpl; lia.
Defined.





(** C9 (degenerate interval): for [lo == hi] and a positive step the
    point count is 1 and the axis is the single stepped value, equal to
    [lo]; no trailing point is appended. *)
Theorem range_points_single_point (lo hi step : Q) :
  0 < step -> lo == hi ->
  num_dp_points lo hi step = Ok 1%Z /\
  exists x,
    range_points lo hi step = Ok [x] /\
    stepped lo hi step 1 = [x] /\
    x == lo.
Proof.
  intros Hs He.
  assert (Hq : py_int ((hi - lo) / step) = 0%Z).
  { assert (Hz : (hi - lo) / step == 0) by (field_simplify_eq; lra).
    apply py_int_small_neg; rewrite Hz; [reflexivity | apply Qle_refl]. }
  split.
  - rewrite num_dp_points_step by lra. now rewrite Hq.
  - exists (grid lo step 0). split; [now apply range_points_degenerate|].
    split; [|apply grid_0].
    change (stepped lo hi step 1) with [py_min (grid lo step 0) hi].
    rewrite py_min_le; [reflexivity|].
    pose proof (grid_0 lo step) as H0. lra.
Qed.

Lemma range_points_single_point_witness :
  0 < 1 # 10 /\ 1 # 2 == 2 # 4 /\
  num_dp_points (1 # 2) (2 # 4) (1 # 10) = Ok 1%Z /\
  exists x,
    range_points (1 # 2) (2 # 4) (1 # 10) = Ok [x] /\
    stepped (1 # 2) (2 # 4) (1 # 10) 1 = [x] /\
    x == 1 # 2.
Proof.
  split; [reflexivity|]. split; [reflexivity|].
  apply (range_points_single_point (1 # 2) (2 # 4) (1 # 10)); reflexivity.
Defined.

(** ** Interval formula *)

(** C7 (redundant clamp): the upper end as computed, with its second
    clamp by [delta_max], equals the single clamp
    [min(delta_max, p_max - p_k)]. *)
Theorem delta_max_double_clamp (delta_max p_max p_k : Q) :
  delta_max_formula delta_max p_max p_k == Qmin delta_max (p_max - p_k).
Proof.
  unfold delta_max_formula.
  rewrite (Q.min_comm (p_max - p_k) delta_max).
  rewrite Q.min_assoc, Q.min_id. reflexivity.
Qed.

(** ** Input normalization *)

(** C3, as stated, fails: a rank-1 [params] of length 3 is not turned into
    a 3-by-1 matrix; the result has one row and three columns. *)
Lemma rank1_is_not_a_column_matrix :
  shape (fst (fst (normalize (of_vector [1; 2; 3]) (Scalar (-1)) (Scalar 1))))
  = [1; 3]%nat /\
  shape (fst (fst (normalize (of_vector [1; 2; 3]) (Scalar (-1)) (Scalar 1))))
  <> [3; 1]%nat.
Proof. split; [reflexivity | discriminate]. Qed.

(** C3, amended: a rank-1 [params] of length R is normalized to a 1-by-R
    matrix, one row holding the whole vector, so that every entry becomes
    a column of its own; both bounds are wrapped as length-1 outer
    sequences. *)
Theorem normalize_rank1 (v : list Q) (delta_params_min delta_params_max : ndarray) :
  normalize (of_vector v) delta_params_min delta_params_max
  = (Array [of_vector v], Array [delta_params_min], Array [delta_params_max])
  /\ shape (Array [of_vector v]) = [1%nat; length v]
  /\ as_matrix (Array [of_vector v]) = Some [v]
  /\ shape1 [v] = length v
  /\ forall k, column [v] k = [nth k v 0].
Proof.
  split; [|split; [|split; [|split]]].
  - unfold normalize. now rewrite ndim_of_vector.
  - cbn [shape length]. now rewrite shape_of_vector.
  - unfold as_matrix. cbn [map option_all].
    now rewrite as_vector_of_vector.
  - reflexivity.
  - reflexivity.
Qed.

(** ** Infeasible intervals *)

(** C4, as stated, fails: with [params = [[0, 2]]], bounds [[1], [2]] and
    step 1 the second column has the interval [lo = 1 > hi = 0]; the
    point count is 0, the point list is empty and the call raises
    [IndexError] instead of returning a list. *)
Lemma infeasible_interval_raises :
  delta_min_k [1] [2] [0] (column [[0; 2]] 1) = Ok [1] /\
  delta_max_k [2] [2] (column [[0; 2]] 1) = Ok [0] /\
  num_dp_points 1 0 1 = Ok 0%Z /\
  consistent_polytope_nd (of_matrix [[0; 2]]) (of_vector [1]) (of_vector [2]) 1
  = Some (Raise IndexError).
Proof. repeat split. Qed.

(** C4, amended: the routine has no handling of an infeasible
    interval, and one that is inverted by a whole step or more
    ([lo - hi >= step_size > 0]) ends the call: the point count of that
    dimension is not positive, its point list is empty, no axis is
    produced for it, and the call raises instead of returning a list. *)
Theorem inversion_by_a_step_fails (params : list (list Q))
    (dmin dmax pmin pmax : list Q) (step : Q) (R K k d : nat) :
  rectangular params R K ->
  length dmin = R -> length dmax = R ->
  mapM row_min params = Ok pmin -> mapM row_max params = Ok pmax ->
  0 < step -> (k < K)%nat -> (d < R)%nat ->
  step <= lo_at params dmin dmax pmin k d - hi_at params dmax pmax k d ->
  (forall n,
     num_dp_points (lo_at params dmin dmax pmin k d)
       (hi_at params dmax pmax k d) step = Ok n ->
     (n <= 0)%Z /\
     stepped (lo_at params dmin dmax pmin k d) (hi_at params dmax pmax k d)
       step n = []) /\
  (exists e,
     range_points (lo_at params dmin dmax pmin k d)
       (hi_at params dmax pmax k d) step = Raise e) /\
  exists e,
    consistent_polytope_nd (of_matrix params) (of_vector dmin)
      (of_vector dmax) step = Some (Raise e).
Proof.
  intros Hrect Hdmin Hdmax Hpmin Hpmax Hstep Hk Hd Hgap.
  assert (HR : (0 < R)%nat) by lia.
  split; [|split].
  - intros n Hn. rewrite num_dp_points_step in Hn by lra. injection Hn as <-.
    assert (Hq : (py_int ((hi_at params dmax pmax k d
                           - lo_at params dmin dmax pmin k d) / step)
                  <= -1)%Z).
    { apply py_int_le_m1. apply Qle_shift_div_r; [assumption | lra]. }
    split; [lia|]. unfold stepped.
    replace (Z.to_nat _) with 0%nat by lia. reflexivity.
  - exists IndexError. now apply range_points_inverted_large.
  - exists IndexError.
    rewrite consistent_polytope_nd_matrix.
    + rewrite (polytope_grid_fails params dmin dmax pmin pmax step R K
                 Hrect HR Hdmin Hdmax Hpmin Hpmax Hstep); [reflexivity|].
      now exists k, d.
    + destruct Hrect as [Hl _]. intros ->. simpl in Hl. lia.
Qed.

Lemma inversion_by_a_step_fails_witness :
  (forall n,
     num_dp_points (lo_at [[0; 2]] [1] [2] [0] 1 0) (hi_at [[0; 2]] [2] [2] 1 0)
       1 = Ok n ->
     (n <= 0)%Z /\
     stepped (lo_at [[0; 2]] [1] [2] [0] 1 0) (hi_at [[0; 2]] [2] [2] 1 0)
       1 n = []) /\
  (exists e,
     range_points (lo_at [[0; 2]] [1] [2] [0] 1 0) (hi_at [[0; 2]] [2] [2] 1 0)
       1 = Raise e) /\
  exists e,
    consistent_polytope_nd (of_matrix [[0; 2]]) (of_vector [1])
      (of_vector [2]) 1 = Some (Raise e).
Proof.
  apply (inversion_by_a_step_fails [[0; 2]] [1] [2] [0] [2] 1 1 2 1 0).
  - split; [reflexivity|]. repeat constructor.
  - reflexivity.
  - reflexivity.
  - reflexivity.
  - reflexivity.
  - reflexivity.
  - lia.
  - lia.
  - vm_compute. discriminate.
Defined.

(** ** Bounds that contain zero *)

Lemma interval_contains_zero (params : list (list Q))
    (dmin dmax pmin pmax : list Q) (R K k d : nat) :
  rectangular params R K ->
  mapM row_min params = Ok pmin -> mapM row_max params = Ok pmax ->
  (k < K)%nat -> (d < R)%nat ->
  nth d dmin 0 <= 0 <= nth d dmax 0 ->
  lo_at params dmin dmax pmin k d <= 0 <= hi_at params dmax pmax k d.
Proof.
  intros Hrect Hpmin Hpmax Hk Hd [Hmn Hmx].
  destruct (envelope_bounds params pmin pmax R K Hrect Hpmin Hpmax d k Hd Hk)
    as [Hlo Hhi].
  unfold lo_at, hi_at, delta_min_formula, delta_max_formula. split.
  - apply Q.max_lub; [exact Hmn|]. apply Q.max_lub; lra.
  - apply Q.min_glb; [exact Hmx|]. apply Q.min_glb; lra.
Qed.

(** C10, as stated, fails under binary64 arithmetic.  With
    [params = [[0, 1]]], bounds [[-1], [1]] around zero and the smallest
    positive step, the first interval is [[0, 1]], the quotient
    [(hi - lo) / step_size] overflows to infinity, [int] raises
    [OverflowError] and no column contributes a pair. *)
Lemma tiny_step_overflows :
  let step := 0x1p-1074%float in
  let params := [[0; 1]]%float in
  ((-1 <=? 0) && (0 <=? 1) && (0 <? step))%float = true /\
  Binary64.delta_min_k [-1]%float [1]%float [0]%float (Binary64.column params 0)
  = Ok [0]%float /\
  Binary64.delta_max_k [1]%float [1]%float (Binary64.column params 0)
  = Ok [1]%float /\
  ((1 - 0) / step)%float = infinity /\
  Binary64.num_dp_points 0 1 step = Raise OverflowError /\
  Binary64.polytope_grid params [-1]%float [1]%float step = Raise OverflowError.
Proof. vm_compute. repeat split. Qed.

(** C10, amended: when [delta_params_min[d] <= 0 <= delta_params_max[d]]
    in every dimension, every column's interval satisfies
    [lo <= 0 <= hi] in every dimension, every point count that [int]
    delivers is at least 1 and its point list is non-empty, so the call
    never raises [IndexError]; and whenever the call returns, every
    column has contributed at least one pair. *)
Theorem zero_in_bounds_no_index_error (params : list (list Q))
    (dmin dmax : list Q) (step : Q) (R K : nat) :
  rectangular params R K -> (0 < R)%nat ->
  length dmin = R -> length dmax = R ->
  0 < step ->
  (forall d, (d < R)%nat -> nth d dmin 0 <= 0 <= nth d dmax 0) ->
  (forall pmin pmax k,
     mapM row_min params = Ok pmin -> mapM row_max params = Ok pmax ->
     (k < K)%nat ->
     exists lo hi,
       delta_min_k dmin dmax pmin (column params k) = Ok lo /\
       delta_max_k dmax pmax (column params k) = Ok hi /\
       forall d, (d < R)%nat ->
         nth d lo 0 <= 0 <= nth d hi 0 /\
         forall n,
           num_dp_points (nth d lo 0) (nth d hi 0) step = Ok n ->
           (1 <= n)%Z /\ stepped (nth d lo 0) (nth d hi 0) step n <> []) /\
  consistent_polytope_nd (of_matrix params) (of_vector dmin) (of_vector dmax)
    step <> Some (Raise IndexError) /\
  forall out,
    consistent_polytope_nd (of_matrix params) (of_vector dmin)
      (of_vector dmax) step = Some (Ok out) ->
    forall k, (k < K)%nat ->
      exists delta_p, In (column params k, delta_p) out.
Proof.
  intros Hrect HR Hdmin Hdmax Hstep Hzero.
  assert (Hne : params <> []).
  { destruct Hrect as [Hl _]. intros ->. simpl in Hl. lia. }
  split.
  { intros pmin pmax k Hpmin Hpmax Hk.
    destruct (intervals_at params dmin dmax pmin pmax R K Hrect Hdmin Hdmax
                Hpmin Hpmax k) as (lo & hi & Hlo & Hhi & _ & _ & Hnth).
    exists lo, hi. repeat (split; [assumption|]).
    intros d Hd. destruct (Hnth d Hd) as [-> ->].
    pose proof (interval_contains_zero params dmin dmax pmin pmax R K k d
                  Hrect Hpmin Hpmax Hk Hd (Hzero d Hd)) as Hin.
    split; [exact Hin|].
    intros n Hn. rewrite num_dp_points_step in Hn by lra. injection Hn as <-.
    assert (Hq : 0 <= (hi_at params dmax pmax k d
                       - lo_at params dmin dmax pmin k d) / step).
    { apply quotient_nonneg; [exact Hstep | lra]. }
    rewrite (py_int_nonneg _ Hq).
    assert (Hf : (0 <= Qfloor ((hi_at params dmax pmax k d
                                - lo_at params dmin dmax pmin k d) / step))%Z).
    { rewrite <- (Qfloor_Z 0). now apply Qfloor_resp_le. }
    split; [lia|]. unfold stepped.
    destruct (Z.to_nat _) eqn:E; [lia | discriminate]. }
  rewrite (consistent_polytope_nd_matrix params dmin dmax step Hne).
  destruct K as [|K'].
  { rewrite (polytope_grid_no_columns params dmin dmax step R Hrect HR).
    split; [discriminate | intros out H; discriminate]. }
  destruct (envelope_exists params R (S K') Hrect) as (pmin & pmax & Hpmin & Hpmax);
    [lia|].
  assert (Hgap : forall k d, (k < S K')%nat -> (d < R)%nat ->
            lo_at params dmin dmax pmin k d - hi_at params dmax pmax k d
            < step).
  { intros k d Hk Hd.
    pose proof (interval_contains_zero params dmin dmax pmin pmax R (S K') k d
                  Hrect Hpmin Hpmax Hk Hd (Hzero d Hd)). lra. }
  destruct (polytope_grid_completes params dmin dmax pmin pmax step R (S K')
              Hrect HR Hdmin Hdmax Hpmin Hpmax Hstep Hgap)
    as (groups & Hout & Hlen & Hgroups).
  rewrite Hout. split; [discriminate|].
  intros out H k Hk. injection H as <-.
  destruct (Hgroups k Hk) as [Hbody Hnil].
  assert (Hin : In (nth k groups []) groups) by (apply nth_In; lia).
  destruct (nth k groups []) as [|[p delta] g]; [contradiction|].
  apply column_points_Ok in Hbody as (lo & hi & axes & _ & _ & _ & _ & HF).
  inversion HF as [|combo pr combos prs [Hp _] _]; subst. simpl in Hp.
  exists delta. apply in_concat. exists ((p, delta) :: g).
  split; [exact Hin | left; now rewrite Hp].
Qed.

Lemma zero_in_bounds_no_index_error_witness :
  (exists lo hi,
     delta_min_k [-1; -1] [1; 1] [0; 0] (column [[0; 1]; [0; 2]] 1) = Ok lo /\
     delta_max_k [1; 1] [1; 2] (column [[0; 1]; [0; 2]] 1) = Ok hi /\
     forall d, (d < 2)%nat ->
       nth d lo 0 <= 0 <= nth d hi 0 /\
       forall n,
         num_dp_points (nth d lo 0) (nth d hi 0) 1 = Ok n ->
         (1 <= n)%Z /\ stepped (nth d lo 0) (nth d hi 0) 1 n <> []) /\
  consistent_polytope_nd (of_matrix [[0; 1]; [0; 2]]) (of_vector [-1; -1])
    (of_vector [1; 1]) 1 <> Some (Raise IndexError) /\
  exists delta_p,
    In (column [[0; 1]; [0; 2]] 1, delta_p)
       [([0; 0], [0; 0]); ([0; 0], [0; 1]); ([0; 0], [1; 0]);
        ([0; 0], [1; 1]); ([1; 2], [-1; -1]); ([1; 2], [-1; 0]);
        ([1; 2], [0; -1]); ([1; 2], [0; 0])].
Proof.
  destruct (zero_in_bounds_no_index_error
              [[0; 1]; [0; 2]] [-1; -1] [1; 1] 1 2 2)
    as (Hint & Hne & Hcov).
  - split; [reflexivity|]. repeat constructor.
  - lia.
  - reflexivity.
  - reflexivity.
  - reflexivity.
  - intros d Hd. destruct d as [|[|d]]; [| |lia];
      split; unfold Qle; simpl; lia.
  - split; [|split].
    + apply (Hint [0; 0] [1; 2] 1%nat); [reflexivity | reflexivity | lia].
    + exact Hne.
    + apply Hcov; [vm_compute; reflexivity | lia].
Defined.

(** ** Cartesian product of a column *)

(** C5 (Cartesian completeness and column order): the output of a call
    is the concatenation of one group per column, in column order; the
    group of column [k] holds one pair per element of the Cartesian
    product of that column's axes, in product order, so its length is the
    product of the axis sizes. *)
Theorem cartesian_completeness (params : list (list Q)) (dmin dmax : list Q)
    (step : Q) (out : list pair_t) :
  consistent_polytope_nd (of_matrix params) (of_vector dmin) (of_vector dmax)
    step = Some (Ok out) ->
  exists pmin pmax groups,
    mapM row_min params = Ok pmin /\
    mapM row_max params = Ok pmax /\
    out = concat groups /\
    length groups = shape1 params /\
    forall k, (k < shape1 params)%nat ->
      exists lo hi axes,
        delta_min_k dmin dmax pmin (column params k) = Ok lo /\
        delta_max_k dmax pmax (column params k) = Ok hi /\
        delta_ranges lo hi step (length params) = Ok axes /\
        length (nth k groups [])
        = fold_right Nat.mul 1%nat (map (@length Q) axes) /\
        Forall2 (fun combo pr =>
                   fst pr = column params k /\
                   clip_vec combo dmin dmax = Ok (snd pr))
                (cartesian axes) (nth k groups []).
Proof.
  intros H.
  destruct params as [|row rows]; [discriminate|].
  rewrite consistent_polytope_nd_matrix in H by discriminate.
  injection H as H. set (params := row :: rows) in *.
  unfold polytope_grid in H.
  apply bind_Ok in H as (pmin & Hpmin & H).
  apply bind_Ok in H as (pmax & Hpmax & H).
  apply column_loop_Ok in H as (groups & HF & ->).
  apply (Forall2_seq_nth _ 0 (shape1 params) groups []) in HF as [Hlen Hnth].
  exists pmin, pmax, groups. repeat (split; [assumption || reflexivity|]).
  intros k Hk. specialize (Hnth k Hk). simpl in Hnth.
  apply column_points_Ok in Hnth as (lo & hi & axes & Hlo & Hhi & Hax & _ & HF).
  exists lo, hi, axes. repeat (split; [assumption|]).
  split; [|exact HF].
  rewrite <- mesh_size_product, <- cartesian_length.
  symmetry. clear - HF. induction HF; simpl; congruence.
Qed.

Lemma cartesian_completeness_witness :
  exists pmin pmax groups,
    mapM row_min [[0; 1]; [0; 2]] = Ok pmin /\
    mapM row_max [[0; 1]; [0; 2]] = Ok pmax /\
    [([0; 0], [0; 0]); ([0; 0], [0; 1]); ([0; 0], [1; 0]); ([0; 0], [1; 1]);
     ([1; 2], [-1; -1]); ([1; 2], [-1; 0]); ([1; 2], [0; -1]);
     ([1; 2], [0; 0])]
    = concat groups /\
    length groups = shape1 [[0; 1]; [0; 2]] /\
    forall k, Nat.lt k (shape1 [[0; 1]; [0; 2]]) ->
      exists lo hi axes,
        delta_min_k [-1; -1] [1; 1] pmin (column [[0; 1]; [0; 2]] k) = Ok lo /\
        delta_max_k [1; 1] pmax (column [[0; 1]; [0; 2]] k) = Ok hi /\
        delta_ranges lo hi 1 (length [[0; 1]; [0; 2]]) = Ok axes /\
        length (nth k groups [])
        = fold_right Nat.mul 1%nat (map (@length Q) axes) /\
        Forall2 (fun combo pr =>
                   fst pr = column [[0; 1]; [0; 2]] k /\
                   clip_vec combo [-1; -1] [1; 1] = Ok (snd pr))
                (cartesian axes) (nth k groups []).
Proof.
  apply (cartesian_completeness [[0; 1]; [0; 2]] [-1; -1] [1; 1] 1).
  vm_compute. reflexivity.
Defined.

(** ** Feasibility of the emitted pairs *)

(** C1 at [params = [[0, 1]]], bounds [[1/2], [1]], step 1: the interval
    of the second column is [lo = 1/2 > hi = 0]; the call returns, and
    its last pair [([1], [1/2])] leaves the envelope: [1 + 1/2] exceeds
    [p_max = 1]. *)
Theorem infeasible_pair_emitted :
  let p_k := [1] in
  let delta_p := [1 # 2] in
  let p_max := [1] in
  mapM row_max [[0; 1]] = Ok p_max /\
  delta_min_k [1 # 2] [1] [0] (column [[0; 1]] 1) = Ok [1 # 2] /\
  delta_max_k [1] [1] (column [[0; 1]] 1) = Ok [0] /\
  range_points (1 # 2) 0 1 = Ok [0] /\
  clip_vec [0] [1 # 2] [1] = Ok delta_p /\
  consistent_polytope_nd (of_matrix [[0; 1]]) (of_vector [1 # 2])
    (of_vector [1]) 1
  = Some (Ok [([0], [1 # 2]); ([0], [1]); (p_k, delta_p)]) /\
  nth 0 p_max 0 < nth 0 p_k 0 + nth 0 delta_p 0.
Proof. repeat split. Qed.

(** The inputs of C1 and C4 hold binary64 numbers only and no operation
    on them rounds: the binary64 body gives the same results. *)
Lemma binary64_infeasible_pair_emitted :
  Binary64.polytope_grid [[0; 1]]%float [0.5]%float [1]%float 1
  = Ok [([0], [0.5]); ([0], [1]); ([1], [0.5])]%float.
Proof. vm_compute. reflexivity. Qed.

Lemma binary64_infeasible_interval_raises :
  Binary64.polytope_grid [[0; 2]]%float [1]%float [2]%float 1
  = Raise IndexError.
Proof. vm_compute. reflexivity. Qed.

(** * Further properties of the routine *)

(** ** A step wider than the interval *)

(** A step wider than a non-degenerate interval still gives both ends:
    the axis is the two points [lo] and [hi]. *)
Theorem range_points_coarse_step (lo hi step : Q) :
  lo < hi -> hi - lo < step ->
  exists first,
    range_points lo hi step = Ok [first; hi] /\ first == lo.
Proof.
  intros Hlt Hgap.
  assert (Hs : 0 < step) by lra.
  assert (Hle : lo <= hi) by lra.
  pose proof (range_points_feasible lo hi step Hs Hle) as Hrp.
  assert (HN : whole_steps lo hi step = 0%nat).
  { unfold whole_steps.
    assert (Hq : (hi - lo) / step < 1).
    { apply Qlt_shift_div_r; [exact Hs | lra]. }
    pose proof (Qfloor_le ((hi - lo) / step)) as Hf.
    assert (Hz : (Qfloor ((hi - lo) / step) < 1)%Z).
    { rewrite Zlt_Qlt. setoid_replace (inject_Z 1) with 1 by reflexivity. lra. }
    lia. }
  rewrite HN in Hrp.
  assert (E : Qlt_bool (grid lo step 0) hi = true).
  { apply Qlt_bool_iff. pose proof (grid_0 lo step). lra. }
  rewrite E in Hrp.
  exists (grid lo step 0). split; [exact Hrp | apply grid_0].
Qed.

Lemma range_points_coarse_step_witness :
  0 < 1 # 2 /\ (1 # 2) - 0 < 1 /\
  exists first,
    range_points 0 (1 # 2) 1 = Ok [first; 1 # 2] /\ first == 0.
Proof.
  split; [reflexivity|]. split; [reflexivity|].
  apply (range_points_coarse_step 0 (1 # 2) 1); reflexivity.
Defined.

(** ** The mesh of a column *)

(** [np.meshgrid(..., indexing="ij")], [ravel] and [np.stack(..., axis=-1)]
    together enumerate the Cartesian product of the axes in lexicographic
    order: a combination is produced exactly when each of its components
    is taken from the axis of its dimension, and the number of
    combinations is the product of the axis sizes. *)
Theorem delta_combinations_is_product (axes : list (list Q)) :
  axes <> [] ->
  exists combos,
    delta_combinations axes = Ok combos /\
    combos = cartesian axes /\
    length combos = fold_right Nat.mul 1%nat (map (@length Q) axes) /\
    forall c, In c combos <-> Forall2 (fun x a => In x a) c axes.
Proof.
  intros Hne. exists (cartesian axes).
  split; [now apply delta_combinations_Ok|].
  split; [reflexivity|].
  split; [now rewrite cartesian_length, mesh_size_product|].
  intros c. apply in_cartesian.
Qed.

Lemma delta_combinations_is_product_witness :
  [[0; 1]; [2; 3; 4]] <> [] /\
  exists combos,
    delta_combinations [[0; 1]; [2; 3; 4]] = Ok combos /\
    combos = cartesian [[0; 1]; [2; 3; 4]] /\
    length combos = fold_right Nat.mul 1%nat (map (@length Q) [[0; 1]; [2; 3; 4]]) /\
    forall c, In c combos <-> Forall2 (fun x a => In x a) c [[0; 1]; [2; 3; 4]].
Proof.
  split; [discriminate|].
  apply (delta_combinations_is_product [[0; 1]; [2; 3; 4]]). discriminate.
Defined.

(** ** Where an emitted pair comes from *)

Lemma Forall2_in_r {A B : Type} (P : A -> B -> Prop) (l : list A)
    (r : list B) (y : B) :
  Forall2 P l r -> In y r -> exists x, In x l /\ P x y.
Proof.
  induction 1 as [|a b l r Hab _ IH]; intros Hin; [destruct Hin|].
  destruct Hin as [<-|Hin].
  - exists a. split; [now left | exact Hab].
  - destruct (IH Hin) as (x & Hx & Hp). exists x. split; [now right | exact Hp].
Qed.

Lemma emitted_pair_origin (params : list (list Q)) (dmin dmax : list Q)
    (step : Q) (out : list pair_t) (p_k delta_p : list Q) :
  polytope_grid params dmin dmax step = Ok out ->
  In (p_k, delta_p) out ->
  exists pmin pmax k lo hi axes combo,
    mapM row_min params = Ok pmin /\
    mapM row_max params = Ok pmax /\
    (k < shape1 params)%nat /\
    p_k = column params k /\
    delta_min_k dmin dmax pmin (column params k) = Ok lo /\
    delta_max_k dmax pmax (column params k) = Ok hi /\
    delta_ranges lo hi step (length params) = Ok axes /\
    In combo (cartesian axes) /\
    clip_vec combo dmin dmax = Ok delta_p.
Proof.
  intros H Hin. unfold polytope_grid in H.
  apply bind_Ok in H as (pmin & Hpmin & H).
  apply bind_Ok in H as (pmax & Hpmax & H).
  apply column_loop_Ok in H as (groups & HF & ->). simpl in Hin.
  apply in_concat in Hin as (g & Hg & Hin).
  apply (In_nth _ _ []) in Hg as (k & Hk & <-).
  apply (Forall2_seq_nth _ 0 (shape1 params) groups []) in HF as [Hlen Hbody].
  rewrite Hlen in Hk. specialize (Hbody k Hk). simpl in Hbody.
  apply column_points_Ok in Hbody
    as (lo & hi & axes & Hlo & Hhi & Hax & _ & HF).
  destruct (Forall2_in_r _ _ _ _ HF Hin) as (combo & Hcombo & Hp & Hc).
  simpl in Hp, Hc.
  exists pmin, pmax, k, lo, hi, axes, combo.
  repeat (split; [assumption|]). exact Hc.
Qed.

Lemma delta_ranges_length (lo hi : list Q) (step : Q) (R : nat)
    (axes : list (list Q)) :
  delta_ranges lo hi step R = Ok axes -> length axes = R.
Proof.
  intros H. apply mapM_length in H. now rewrite length_seq in H.
Qed.

(** ** The final clip *)

(** Whenever a call on a well-shaped input returns, every emitted pair
    is a column of [params] together with a perturbation of the same
    length that respects the bounds of every dimension with
    [delta_params_min[d] <= delta_params_max[d]]; this needs neither a
    positive step nor feasible intervals. *)
Theorem emitted_delta_within_bounds (params : list (list Q))
    (dmin dmax : list Q) (step : Q) (R K : nat) (out : list pair_t) :
  rectangular params R K ->
  length dmin = R -> length dmax = R ->
  consistent_polytope_nd (of_matrix params) (of_vector dmin) (of_vector dmax)
    step = Some (Ok out) ->
  forall p_k delta_p, In (p_k, delta_p) out ->
    (exists k, (k < K)%nat /\ p_k = column params k) /\
    length p_k = R /\ length delta_p = R /\
    forall d, (d < R)%nat -> nth d dmin 0 <= nth d dmax 0 ->
      nth d dmin 0 <= nth d delta_p 0 <= nth d dmax 0.
Proof.
  intros Hrect Hdmin Hdmax H p delta Hin.
  destruct params as [|row rows]; [discriminate|].
  rewrite consistent_polytope_nd_matrix in H by discriminate.
  injection H as H. set (params := row :: rows) in *.
  assert (HR : (0 < R)%nat).
  { destruct Hrect as [Hl _]. simpl in Hl. lia. }
  destruct (emitted_pair_origin params dmin dmax step out p delta H Hin)
    as (pmin & pmax & k & lo & hi & axes & combo & _ & _ & Hk & -> & _ & _
        & Hax & Hcombo & Hclip).
  rewrite (rectangular_shape1 params R K Hrect HR) in Hk.
  destruct Hrect as [Hrows _]. rewrite Hrows in Hax.
  apply delta_ranges_length in Hax.
  apply combo_length in Hcombo.
  rewrite clip_vec_same in Hclip by congruence. injection Hclip as <-.
  split; [now exists k|].
  split; [rewrite column_length; exact Hrows|].
  split; [repeat apply zip_with_length_n; congruence|].
  intros d Hd Hab.
  rewrite (zip_with_nth Qmin), (zip_with_nth Qmax)
    by (rewrite ?(zip_with_length_n Qmax combo dmin R); congruence || lia).
  set (c := nth d combo 0). set (a := nth d dmin 0) in *.
  set (b := nth d dmax 0) in *.
  split.
  - apply Q.min_glb; [|exact Hab]. apply Q.le_max_r.
  - apply Q.le_min_r.
Qed.

Lemma emitted_delta_within_bounds_witness :
  (exists k, (k < 2)%nat /\ [1] = column [[0; 1]] k) /\
  length [1] = 1%nat /\ length [1 # 2] = 1%nat /\
  forall d, (d < 1)%nat -> nth d [1 # 2] 0 <= nth d [1] 0 ->
    nth d [1 # 2] 0 <= nth d [1 # 2] 0 <= nth d [1] 0.
Proof.
  apply (emitted_delta_within_bounds [[0; 1]] [1 # 2] [1] 1 1 2
           [([0], [1 # 2]); ([0], [1]); ([1], [1 # 2])]).
  - split; [reflexivity|]. constructor; [reflexivity | constructor].
  - reflexivity.
  - reflexivity.
  - vm_compute. reflexivity.
  - simpl. right. right. left. reflexivity.
Defined.

(** ** Emitted perturbations and the interval of their column *)

(** When every interval is feasible, each emitted perturbation lies,
    dimension by dimension, in the interval [[lo, hi]] of its column; in
    particular it is never below [-delta_params_max[d]], the symmetric
    lower clamp that the interval formula adds to [delta_params_min[d]]. *)
Theorem emitted_delta_within_interval (params : list (list Q))
    (dmin dmax pmin pmax : list Q) (step : Q) (R K : nat)
    (out : list pair_t) :
  rectangular params R K ->
  length dmin = R -> length dmax = R ->
  mapM row_min params = Ok pmin -> mapM row_max params = Ok pmax ->
  0 < step ->
  (forall k d, (k < K)%nat -> (d < R)%nat ->
     lo_at params dmin dmax pmin k d <= hi_at params dmax pmax k d) ->
  consistent_polytope_nd (of_matrix params) (of_vector dmin) (of_vector dmax)
    step = Some (Ok out) ->
  forall p_k delta_p, In (p_k, delta_p) out ->
    exists k, (k < K)%nat /\ p_k = column params k /\
      forall d, (d < R)%nat ->
        lo_at params dmin dmax pmin k d <= nth d delta_p 0 /\
        nth d delta_p 0 <= hi_at params dmax pmax k d /\
        - nth d dmax 0 <= nth d delta_p 0.
Proof.
  intros Hrect Hdmin Hdmax Hpmin Hpmax Hstep Hfeas H p delta Hin.
  destruct params as [|row rows]; [discriminate|].
  rewrite consistent_polytope_nd_matrix in H by discriminate.
  injection H as H. set (params := row :: rows) in *.
  assert (HR : (0 < R)%nat).
  { destruct Hrect as [Hl _]. simpl in Hl. lia. }
  destruct (emitted_pair_origin params dmin dmax step out p delta H Hin)
    as (pmin' & pmax' & k & lo & hi & axes & combo & Hpmin' & Hpmax' & Hk
        & -> & Hlo & Hhi & Hax & Hcombo & Hclip).
  assert (pmin' = pmin) by congruence. assert (pmax' = pmax) by congruence.
  subst pmin' pmax'.
  rewrite (rectangular_shape1 params R K Hrect HR) in Hk.
  exists k. split; [exact Hk|]. split; [reflexivity|].
  destruct (intervals_at params dmin dmax pmin pmax R K Hrect Hdmin Hdmax
              Hpmin Hpmax k) as (lo' & hi' & Hlo' & Hhi' & Llo & Lhi & Hnth).
  assert (lo' = lo) by congruence. assert (hi' = hi) by congruence.
  subst lo' hi'.
  destruct Hrect as [Hrows _]. rewrite Hrows in Hax.
  apply (delta_ranges_Ok lo hi step R axes Llo Lhi) in Hax as [Lax Hnthax].
  pose proof (combo_length axes combo Hcombo) as Lcombo.
  apply in_cartesian in Hcombo.
  apply (Forall2_nth _ _ _ 0 []) in Hcombo as [_ Hcombo].
  rewrite clip_vec_same in Hclip by congruence. injection Hclip as <-.
  intros d Hd.
  destruct (Hnth d Hd) as [El Eh].
  assert (Hc : nth d lo 0 <= nth d combo 0 <= nth d hi 0).
  { destruct (range_points_feasible_spec (nth d lo 0) (nth d hi 0) step Hstep)
      as (first & rest & Hrp & _ & _ & _ & Hall).
    - rewrite El, Eh. now apply Hfeas.
    - rewrite (Hnthax d Hd) in Hrp. injection Hrp as Hrp.
      rewrite Forall_forall in Hall. apply Hall. rewrite <- Hrp.
      apply Hcombo. lia. }
  rewrite (zip_with_nth Qmin), (zip_with_nth Qmax)
    by (rewrite ?(zip_with_length_n Qmax combo dmin R); congruence || lia).
  rewrite El, Eh in Hc. revert Hc.
  unfold lo_at, hi_at, delta_min_formula, delta_max_formula.
  set (c := nth d combo 0). set (a := nth d dmin 0).
  set (b := nth d dmax 0). set (e := entry params d k).
  set (mn := nth d pmin 0). set (mx := nth d pmax 0).
  intros Hc.
  pose proof (Q.le_max_l a (Qmax (mn - e) (- b))) as H1.
  pose proof (Q.le_max_r a (Qmax (mn - e) (- b))) as H2.
  pose proof (Q.le_max_r (mn - e) (- b)) as H3.
  pose proof (Q.le_min_l b (Qmin (mx - e) b)) as H4.
  assert (Hac : a <= c) by lra. assert (Hcb : c <= b) by lra.
  assert (E1 : Qmax c a == c) by (apply Q.max_l; exact Hac).
  assert (E2 : Qmin (Qmax c a) b == c).
  { rewrite E1. apply Q.min_l. exact Hcb. }
  rewrite E2. repeat split; lra.
Qed.

Lemma emitted_delta_within_interval_witness :
  exists k, (k < 2)%nat /\ [1; 2] = column [[0; 1]; [0; 2]] k /\
    forall d, (d < 2)%nat ->
      lo_at [[0; 1]; [0; 2]] [-3; -3] [1; 1] [0; 0] k d <= nth d [-1; 0] 0 /\
      nth d [-1; 0] 0 <= hi_at [[0; 1]; [0; 2]] [1; 1] [1; 2] k d /\
      - nth d [1; 1] 0 <= nth d [-1; 0] 0.
Proof.
  apply (emitted_delta_within_interval
           [[0; 1]; [0; 2]] [-3; -3] [1; 1] [0; 0] [1; 2] 1 2 2
           [([0; 0], [0; 0]); ([0; 0], [0; 1]); ([0; 0], [1; 0]);
            ([0; 0], [1; 1]); ([1; 2], [-1; -1]); ([1; 2], [-1; 0]);
            ([1; 2], [0; -1]); ([1; 2], [0; 0])]).
  - split; [reflexivity|]. repeat constructor.
  - reflexivity.
  - reflexivity.
  - reflexivity.
  - reflexivity.
  - reflexivity.
  - intros k d Hk Hd.
    destruct k as [|[|k]]; [| |lia]; destruct d as [|[|d]]; try lia;
      vm_compute; discriminate.
  - vm_compute. reflexivity.
  - simpl. do 5 right. left. reflexivity.
Defined.

(** ** Bounds that do not contain zero *)

Lemma fold_max_attained (xs : list Q) (x : Q) :
  In (fold_left Qmax xs x) (x :: xs).
Proof.
  revert x. induction xs as [|a xs IH]; intros x; [now left|].
  cbn [fold_left].
  destruct (IH (Qmax x a)) as [E|Hin]; [|right; now right].
  rewrite <- E. unfold Qmax, GenericMinMax.gmax.
  destruct (x ?= a); [now left | right; now left | now left].
Qed.

Lemma envelope_attained (params : list (list Q)) (pmax : list Q)
    (R K d : nat) :
  rectangular params R K ->
  mapM row_max params = Ok pmax ->
  (d < R)%nat ->
  exists k, (k < K)%nat /\ entry params d k = nth d pmax 0.
Proof.
  intros [Hlen Hrows] Hpmax Hd.
  apply mapM_Ok_Forall2 in Hpmax.
  apply (Forall2_nth _ _ _ [] 0) in Hpmax as [_ Hmx].
  specialize (Hmx d ltac:(lia)).
  assert (Hrow : length (nth d params []) = K).
  { rewrite Forall_forall in Hrows. apply Hrows, nth_In. lia. }
  unfold entry. destruct (nth d params []) as [|x xs]; [discriminate|].
  injection Hmx as Hmx.
  pose proof (fold_max_attained xs x) as Hin. rewrite Hmx in Hin.
  apply (In_nth _ _ 0) in Hin as (k & Hk & E).
  exists k. split; [lia | exact E].
Qed.

(** In each dimension the intervals of all columns are feasible exactly
    when the bounds of that dimension contain zero (the envelope exists,
    so there is at least one column).  A lower bound above
    zero or an upper bound below zero leaves the column that attains the
    row maximum with [lo > hi]: there [p_max - p_k] is zero, so [hi] is
    at most zero while [lo] is at least [delta_params_min[d]] and at
    least [-delta_params_max[d]]. *)
Theorem intervals_feasible_iff_bounds_contain_zero (params : list (list Q))
    (dmin dmax pmin pmax : list Q) (R K d : nat) :
  rectangular params R K ->
  mapM row_min params = Ok pmin -> mapM row_max params = Ok pmax ->
  (d < R)%nat ->
  (forall k, (k < K)%nat ->
     lo_at params dmin dmax pmin k d <= hi_at params dmax pmax k d)
  <-> nth d dmin 0 <= 0 <= nth d dmax 0.
Proof.
  intros Hrect Hpmin Hpmax Hd.
  destruct (envelope_attained params pmax R K d Hrect Hpmax Hd)
    as (top & Htop & Etop).
  split.
  - intros Hfeas. specialize (Hfeas top Htop). revert Hfeas.
    unfold lo_at, hi_at, delta_min_formula, delta_max_formula.
    rewrite Etop.
    set (a := nth d dmin 0). set (b := nth d dmax 0).
    set (mn := nth d pmin 0). set (mx := nth d pmax 0).
    intros Hfeas.
    pose proof (Q.le_max_l a (Qmax (mn - mx) (- b))) as H1.
    pose proof (Q.le_max_r a (Qmax (mn - mx) (- b))) as H2.
    pose proof (Q.le_max_r (mn - mx) (- b)) as H3.
    pose proof (Q.le_min_r b (Qmin (mx - mx) b)) as H4.
    pose proof (Q.le_min_l (mx - mx) b) as H5.
    split; lra.
  - intros Hzero k Hk.
    pose proof (interval_contains_zero params dmin dmax pmin pmax R K k d
                  Hrect Hpmin Hpmax Hk Hd Hzero). lra.
Qed.

Lemma intervals_feasible_iff_bounds_contain_zero_witness :
  (forall k, (k < 2)%nat ->
     lo_at [[0; 1]] [1 # 2] [1] [0] k 0 <= hi_at [[0; 1]] [1] [1] k 0)
  <-> nth 0 [1 # 2] 0 <= 0 <= nth 0 [1] 0.
Proof.
  apply (intervals_feasible_iff_bounds_contain_zero
           [[0; 1]] [1 # 2] [1] [0] [1] 1 2 0).
  - split; [reflexivity|]. repeat constructor.
  - reflexivity.
  - reflexivity.
  - lia.
Defined.

(** ** Exceptions of a call *)

Lemma gap_cases (gap : nat -> nat -> Q) (step : Q) (R K : nat) :
  (forall k d, (k < K)%nat -> (d < R)%nat -> gap k d < step) \/
  (exists k d, (k < K)%nat /\ (d < R)%nat /\ step <= gap k d).
Proof.
  destruct (bounded_cases K
              (fun k => forall d, (d < R)%nat -> gap k d < step)
              (fun k => exists d, (d < R)%nat /\ step <= gap k d))
    as [Hall|(k & Hk & d & Hd & Hgap)].
  - intros k _.
    apply (bounded_cases R (fun d => gap k d < step)
             (fun d => step <= gap k d)).
    intros d _. destruct (Qlt_le_dec (gap k d) step); [now left | now right].
  - left. intros k d Hk Hd. now apply Hall.
  - right. now exists k, d.
Qed.

(** On a well-shaped input with a positive step an [IndexError] always
    comes from an infeasible interval: when a call raises it, some
    dimension of some column has [lo > hi].  With feasible intervals in
    every column, [range_points[-1]] never fails. *)
Theorem index_error_needs_an_inverted_interval (params : list (list Q))
    (dmin dmax : list Q) (step : Q) (R K : nat) :
  rectangular params R K ->
  length dmin = R -> length dmax = R ->
  0 < step ->
  consistent_polytope_nd (of_matrix params) (of_vector dmin) (of_vector dmax)
    step = Some (Raise IndexError) ->
  exists pmin pmax k d,
    mapM row_min params = Ok pmin /\ mapM row_max params = Ok pmax /\
    (k < K)%nat /\ (d < R)%nat /\
    hi_at params dmax pmax k d < lo_at params dmin dmax pmin k d.
Proof.
  intros Hrect Hdmin Hdmax Hstep H.
  destruct params as [|row rows]; [discriminate|].
  rewrite consistent_polytope_nd_matrix in H by discriminate.
  injection H as H. set (params := row :: rows) in *.
  assert (HR : (0 < R)%nat).
  { destruct Hrect as [Hl _]. simpl in Hl. lia. }
  destruct K as [|K'].
  { rewrite (polytope_grid_no_columns params dmin dmax step R Hrect HR) in H.
    discriminate. }
  destruct (envelope_exists params R (S K') Hrect)
    as (pmin & pmax & Hpmin & Hpmax); [lia|].
  exists pmin, pmax.
  destruct (gap_cases
              (fun k d => lo_at params dmin dmax pmin k d
                          - hi_at params dmax pmax k d) step R (S K'))
    as [Hsmall|(k & d & Hk & Hd & Hgap)].
  - destruct (polytope_grid_completes params dmin dmax pmin pmax step R (S K')
                Hrect HR Hdmin Hdmax Hpmin Hpmax Hstep Hsmall)
      as (groups & Hout & _).
    rewrite H in Hout. discriminate.
  - exists k, d. repeat (split; [assumption|]). simpl in Hgap. lra.
Qed.

Lemma index_error_needs_an_inverted_interval_witness :
  exists pmin pmax k d,
    mapM row_min [[0; 2]] = Ok pmin /\ mapM row_max [[0; 2]] = Ok pmax /\
    (k < 2)%nat /\ (d < 1)%nat /\
    hi_at [[0; 2]] [2] pmax k d < lo_at [[0; 2]] [1] [2] pmin k d.
Proof.
  apply (index_error_needs_an_inverted_interval [[0; 2]] [1] [2] 1 1 2).
  - split; [reflexivity|]. repeat constructor.
  - reflexivity.
  - reflexivity.
  - reflexivity.
  - vm_compute. reflexivity.
Defined.

(** A zero step makes [int] fail on the first dimension of the first
    column: the call raises [ValueError] when that interval is a single
    point (the quotient is undefined) and [OverflowError] otherwise (the
    quotient is infinite). *)
Theorem zero_step_raises (params : list (list Q))
    (dmin dmax pmin pmax : list Q) (step : Q) (R K : nat) :
  rectangular params R K -> (0 < R)%nat -> (0 < K)%nat ->
  length dmin = R -> length dmax = R ->
  mapM row_min params = Ok pmin -> mapM row_max params = Ok pmax ->
  step == 0 ->
  consistent_polytope_nd (of_matrix params) (of_vector dmin) (of_vector dmax)
    step
  = Some (Raise (if Qeq_bool (hi_at params dmax pmax 0 0
                              - lo_at params dmin dmax pmin 0 0) 0
                 then ValueError else OverflowError)).
Proof.
  intros Hrect HR HK Hdmin Hdmax Hpmin Hpmax Hzero.
  assert (Hne : params <> []).
  { destruct Hrect as [Hl _]. intros ->. simpl in Hl. lia. }
  rewrite (consistent_polytope_nd_matrix params dmin dmax step Hne).
  rewrite (polytope_grid_loop params dmin dmax pmin pmax step R K Hrect HR
             Hpmin Hpmax).
  destruct (intervals_at params dmin dmax pmin pmax R K Hrect Hdmin Hdmax
              Hpmin Hpmax 0) as (lo & hi & Hlo & Hhi & Llo & Lhi & Hnth).
  destruct (Hnth 0%nat HR) as [El Eh].
  destruct K as [|K']; [lia|]. cbn [seq column_loop].
  unfold column_points. rewrite Hlo. cbn [bind]. rewrite Hhi. cbn [bind].
  destruct Hrect as [Hlen _]. rewrite Hlen.
  destruct R as [|R']; [lia|].
  unfold delta_ranges. cbn [seq mapM].
  rewrite !index_nth by lia. cbn [bind].
  unfold range_points, num_dp_points.
  assert (E : Qeq_bool step 0 = true) by (now apply Qeq_bool_iff).
  rewrite E, El, Eh. reflexivity.
Qed.

Lemma zero_step_raises_witness :
  consistent_polytope_nd (of_matrix [[0; 1]]) (of_vector [-1]) (of_vector [1])
    0
  = Some (Raise (if Qeq_bool (hi_at [[0; 1]] [1] [1] 0 0
                              - lo_at [[0; 1]] [-1] [1] [0] 0 0) 0
                 then ValueError else OverflowError)).
Proof.
  apply (zero_step_raises [[0; 1]] [-1] [1] [0] [1] 0 1 2).
  - split; [reflexivity|]. repeat constructor.
  - lia.
  - lia.
  - reflexivity.
  - reflexivity.
  - reflexivity.
  - reflexivity.
  - reflexivity.
Defined.

(** A [params] without columns has nothing to reduce: the envelope
    computation raises [ValueError], whatever the bounds and the step. *)
Theorem no_columns_raises (params : list (list Q)) (dmin dmax : list Q)
    (step : Q) (R : nat) :
  rectangular params R 0 -> (0 < R)%nat ->
  consistent_polytope_nd (of_matrix params) (of_vector dmin) (of_vector dmax)
    step = Some (Raise ValueError).
Proof.
  intros [Hlen Hrows] HR.
  destruct params as [|row rows]; [simpl in Hlen; lia|].
  rewrite consistent_polytope_nd_matrix by discriminate.
  inversion Hrows as [|x l Hrow _]; subst.
  destruct row; [reflexivity | discriminate].
Qed.

Lemma no_columns_raises_witness :
  consistent_polytope_nd (of_matrix [[]; []]) (of_vector [-1; -1])
    (of_vector [1; 1]) 1 = Some (Raise ValueError).
Proof.
  apply (no_columns_raises [[]; []] [-1; -1] [1; 1] 1 2).
  - split; [reflexivity|]. repeat constructor.
  - lia.
Defined.

(** ** Rank-1 input *)

(** A call on a rank-1 [params] with scalar bounds is the call on the
    one-row matrix holding that vector, with the bounds as length-1
    arrays: every entry of the vector is a one-dimensional column, so each
    emitted pair has a [p_k] and a [delta_p] of length 1. *)
Theorem rank1_call_is_one_row_call (v : list Q) (a b step : Q) :
  consistent_polytope_nd (of_vector v) (Scalar a) (Scalar b) step
  = consistent_polytope_nd (of_matrix [v]) (of_vector [a]) (of_vector [b]) step
  /\
  forall out,
    consistent_polytope_nd (of_vector v) (Scalar a) (Scalar b) step
    = Some (Ok out) ->
    forall p_k delta_p, In (p_k, delta_p) out ->
      (exists k, (k < length v)%nat /\ p_k = [nth k v 0]) /\
      length delta_p = 1%nat.
Proof.
  assert (H1 : consistent_polytope_nd (of_vector v) (Scalar a) (Scalar b) step
               = Some (polytope_grid [v] [a] [b] step)).
  { unfold consistent_polytope_nd, normalize. rewrite ndim_of_vector.
    cbn [Nat.eqb as_matrix map option_all]. rewrite as_vector_of_vector.
    reflexivity. }
  split.
  - rewrite H1. symmetry. apply consistent_polytope_nd_matrix. discriminate.
  - intros out Hout p delta Hin. rewrite H1 in Hout. injection Hout as Hout.
    destruct (emitted_pair_origin [v] [a] [b] step out p delta Hout Hin)
      as (pmin & pmax & k & lo & hi & axes & combo & _ & _ & Hk & -> & _ & _
          & Hax & Hcombo & Hclip).
    split; [exists k; split; [exact Hk | reflexivity]|].
    apply delta_ranges_length in Hax. apply combo_length in Hcombo.
    simpl in Hax. rewrite clip_vec_same in Hclip by (simpl; congruence).
    injection Hclip as <-.
    repeat apply zip_with_length_n; simpl; congruence.
Qed.

Lemma rank1_call_is_one_row_call_witness :
  (exists k, (k < length [0; 2])%nat /\ [2] = [nth k [0; 2] 0]) /\
  length [-1] = 1%nat.
Proof.
  apply (proj2 (rank1_call_is_one_row_call [0; 2] (-1) 1 1)
           [([0], [0]); ([0], [1]); ([2], [-1]); ([2], [0])]).
  - vm_compute. reflexivity.
  - simpl. right. right. left. reflexivity.
Defined.

(** ** Broadcasting of the bounds *)

Lemma map_zip_repeat_l (f : Q -> Q -> Q) (x : Q) (v : list Q) :
  map (f x) v = zip_with f (repeat x (length v)) v.
Proof.
  induction v as [|y v IH]; simpl; [reflexivity | now rewrite IH].
Qed.

Lemma map_zip_repeat_r (f : Q -> Q -> Q) (x : Q) (u : list Q) :
  map (fun y => f y x) u = zip_with f u (repeat x (length u)).
Proof.
  induction u as [|y u IH]; simpl; [reflexivity | now rewrite IH].
Qed.

Lemma broadcast2_stretch_l (f : Q -> Q -> Q) (x : Q) (v : list Q) (n : nat) :
  length v = n ->
  broadcast2 f [x] v = Ok (zip_with f (repeat x n) v).
Proof.
  intros <-. unfold broadcast2. cbn [length hd].
  destruct (Nat.eqb 1 (length v)) eqn:E.
  - apply Nat.eqb_eq in E. rewrite <- E. reflexivity.
  - cbn [Nat.eqb]. now rewrite map_zip_repeat_l.
Qed.

Lemma broadcast2_stretch_r (f : Q -> Q -> Q) (u : list Q) (x : Q) (n : nat) :
  length u = n ->
  broadcast2 f u [x] = Ok (zip_with f u (repeat x n)).
Proof.
  intros <-. unfold broadcast2. cbn [length hd].
  destruct (Nat.eqb (length u) 1) eqn:E.
  - apply Nat.eqb_eq in E. rewrite E. reflexivity.
  - cbn [Nat.eqb]. now rewrite map_zip_repeat_r.
Qed.

Lemma column_loop_ext (f g : nat -> result (list pair_t)) (ks : list nat)
    (acc : list pair_t) :
  (forall k, In k ks -> f k = g k) ->
  column_loop f ks acc = column_loop g ks acc.
Proof.
  revert acc. induction ks as [|k ks IH]; intros acc H; [reflexivity|].
  simpl. rewrite (H k (or_introl eq_refl)).
  destruct (g k) as [new|e]; [|reflexivity]. simpl.
  apply IH. intros j Hj. apply H. now right.
Qed.

Lemma column_points_stretch (params : list (list Q)) (a b : Q)
    (pmin pmax : list Q) (step : Q) (R k : nat) :
  length params = R -> length pmin = R -> length pmax = R ->
  column_points params [a] [b] pmin pmax step k
  = column_points params (repeat a R) (repeat b R) pmin pmax step k.
Proof.
  intros Hlen Lmin Lmax.
  assert (Lcol : length (column params k) = R)
    by (rewrite column_length; exact Hlen).
  set (col := column params k) in *.
  set (a1 := zip_with Qminus pmin col).
  set (a2 := zip_with Qminus pmax col).
  assert (La1 : length a1 = R) by (apply zip_with_length_n; assumption).
  assert (La2 : length a2 = R) by (apply zip_with_length_n; assumption).
  set (b1 := zip_with Qmax a1 (repeat (- b) R)).
  set (b2 := zip_with Qmin a2 (repeat b R)).
  assert (Lrb : length (repeat b R) = R) by apply repeat_length.
  assert (Lra : length (repeat a R) = R) by apply repeat_length.
  assert (Lrnb : length (repeat (- b) R) = R) by apply repeat_length.
  assert (Lb1 : length b1 = R) by (apply zip_with_length_n; assumption).
  assert (Lb2 : length b2 = R) by (apply zip_with_length_n; assumption).
  assert (Hmin : delta_min_k [a] [b] pmin col
                 = delta_min_k (repeat a R) (repeat b R) pmin col).
  { unfold delta_min_k.
    rewrite (broadcast2_same Qminus pmin col) by congruence. cbn [bind].
    fold a1. cbn [map].
    rewrite (broadcast2_stretch_r Qmax a1 (- b) R La1). cbn [bind]. fold b1.
    rewrite (broadcast2_stretch_l Qmax a b1 R Lb1).
    rewrite map_repeat.
    rewrite (broadcast2_same Qmax a1 (repeat (- b) R)) by congruence.
    cbn [bind]. fold b1. symmetry. apply broadcast2_same. congruence. }
  assert (Hmax : delta_max_k [b] pmax col
                 = delta_max_k (repeat b R) pmax col).
  { unfold delta_max_k.
    rewrite (broadcast2_same Qminus pmax col) by congruence. cbn [bind].
    fold a2.
    rewrite (broadcast2_stretch_r Qmin a2 b R La2). cbn [bind]. fold b2.
    rewrite (broadcast2_stretch_l Qmin b b2 R Lb2).
    rewrite (broadcast2_same Qmin a2 (repeat b R)) by congruence.
    cbn [bind]. fold b2. symmetry. apply broadcast2_same. congruence. }
  unfold column_points. fold col. rewrite Hmin, Hmax.
  destruct (delta_min_k (repeat a R) (repeat b R) pmin col) as [lo|e];
    [|reflexivity].
  cbn [bind].
  destruct (delta_max_k (repeat b R) pmax col) as [hi|e]; [|reflexivity].
  cbn [bind]. rewrite Hlen.
  destruct (delta_ranges lo hi step R) as [axes|e] eqn:Hax; [|reflexivity].
  cbn [bind]. apply delta_ranges_length in Hax.
  destruct axes as [|ax axes]; [reflexivity|].
  rewrite (delta_combinations_Ok (ax :: axes)) by discriminate.
  cbn [bind]. apply mapM_ext_in. intros combo Hcombo.
  apply combo_length in Hcombo.
  assert (Hclip : clip_vec combo [a] [b]
                  = clip_vec combo (repeat a R) (repeat b R)).
  { unfold clip_vec.
    rewrite (broadcast2_stretch_r Qmax combo a R) by congruence.
    rewrite (broadcast2_same Qmax combo (repeat a R)) by congruence.
    cbn [bind].
    assert (Lc : length (zip_with Qmax combo (repeat a R)) = R)
      by (apply zip_with_length_n; congruence).
    rewrite (broadcast2_stretch_r Qmin _ b R Lc).
    symmetry. apply broadcast2_same. congruence. }
  now rewrite Hclip.
Qed.

(** Bounds given as scalars or as length-1 arrays are applied to every
    dimension: the call equals the call with the bound repeated once per
    row of [params]. *)
Theorem single_bound_applies_to_every_row (params : list (list Q)) (a b step : Q)
    (R K : nat) :
  rectangular params R K -> (0 < R)%nat ->
  consistent_polytope_nd (of_matrix params) (of_vector [a]) (of_vector [b]) step
  = consistent_polytope_nd (of_matrix params) (of_vector (repeat a R))
      (of_vector (repeat b R)) step
  /\
  consistent_polytope_nd (of_matrix params) (Scalar a) (Scalar b) step
  = consistent_polytope_nd (of_matrix params) (of_vector (repeat a R))
      (of_vector (repeat b R)) step.
Proof.
  intros Hrect HR.
  assert (Hne : params <> []).
  { destruct Hrect as [Hl _]. intros ->. simpl in Hl. lia. }
  assert (Heq : polytope_grid params [a] [b] step
                = polytope_grid params (repeat a R) (repeat b R) step).
  { unfold polytope_grid.
    destruct (mapM row_min params) as [pmin|e] eqn:Hpmin; [|reflexivity].
    cbn [bind].
    destruct (mapM row_max params) as [pmax|e] eqn:Hpmax; [|reflexivity].
    cbn [bind]. apply column_loop_ext. intros k _.
    destruct Hrect as [Hlen _].
    apply mapM_length in Hpmin. apply mapM_length in Hpmax.
    apply column_points_stretch; congruence. }
  assert (Hvec : consistent_polytope_nd (of_matrix params) (of_vector [a])
                   (of_vector [b]) step
                 = consistent_polytope_nd (of_matrix params)
                     (of_vector (repeat a R)) (of_vector (repeat b R)) step).
  { rewrite !consistent_polytope_nd_matrix by exact Hne. now rewrite Heq. }
  split; [exact Hvec|].
  rewrite <- Hvec. destruct params as [|row rows]; [contradiction|].
  reflexivity.
Qed.

Lemma single_bound_applies_to_every_row_witness :
  consistent_polytope_nd (of_matrix [[0; 1]; [0; 2]]) (of_vector [-1])
    (of_vector [1]) 1
  = consistent_polytope_nd (of_matrix [[0; 1]; [0; 2]])
      (of_vector (repeat (-1) 2)) (of_vector (repeat 1 2)) 1
  /\
  consistent_polytope_nd (of_matrix [[0; 1]; [0; 2]]) (Scalar (-1)) (Scalar 1) 1
  = consistent_polytope_nd (of_matrix [[0; 1]; [0; 2]])
      (of_vector (repeat (-1) 2)) (of_vector (repeat 1 2)) 1.
Proof.
  apply (single_bound_applies_to_every_row [[0; 1]; [0; 2]] (-1) 1 1 2 2).
  - split; [reflexivity|]. repeat constructor.
  - lia.
Defined.

Lemma broadcast2_mismatch (f : Q -> Q -> Q) (u v : list Q) :
  length u <> length v -> length u <> 1%nat -> length v <> 1%nat ->
  broadcast2 f u v = Raise ValueError.
Proof.
  intros H1 H2 H3. unfold broadcast2.
  apply Nat.eqb_neq in H1, H2, H3. now rewrite H1, H2, H3.
Qed.

Lemma delta_min_k_mismatch (dmin dmax pmin p_k : list Q) (R : nat) :
  length pmin = R -> length p_k = R -> (1 < R)%nat ->
  (length dmax <> R /\ length dmax <> 1%nat) \/
  (length dmin <> R /\ length dmin <> 1%nat) ->
  delta_min_k dmin dmax pmin p_k = Raise ValueError.
Proof.
  intros Lmin Lpk HR Hbad. unfold delta_min_k.
  rewrite (broadcast2_same Qminus pmin p_k) by congruence. cbn [bind].
  set (a1 := zip_with Qminus pmin p_k).
  assert (La1 : length a1 = R) by (apply zip_with_length_n; assumption).
  assert (Hthird : forall b1, length b1 = R ->
            length dmin <> R /\ length dmin <> 1%nat ->
            broadcast2 Qmax dmin b1 = Raise ValueError).
  { intros b1 Lb1 [Hd1 Hd2]. apply broadcast2_mismatch; lia. }
  destruct (Nat.eq_dec (length dmax) R) as [HeqR|HneR].
  - rewrite (broadcast2_same Qmax a1) by (rewrite length_map; congruence).
    cbn [bind]. apply Hthird.
    + apply zip_with_length_n; [exact La1 | rewrite length_map; exact HeqR].
    + destruct Hbad as [[H _]|H]; [contradiction | exact H].
  - destruct (Nat.eq_dec (length dmax) 1) as [Heq1|Hne1].
    + destruct dmax as [|y [|z dmax]]; try discriminate. cbn [map].
      rewrite (broadcast2_stretch_r Qmax a1 (- y) R La1). cbn [bind].
      apply Hthird.
      * apply zip_with_length_n; [exact La1 | apply repeat_length].
      * destruct Hbad as [[_ H]|H]; [contradiction | exact H].
    + rewrite broadcast2_mismatch; [reflexivity | | lia |];
        rewrite ?length_map; lia.
Qed.

(** Bounds whose length is neither 1 nor the number of rows do not
    broadcast against a [params] of two or more rows: the call raises
    [ValueError] and returns nothing. *)
Theorem mismatched_bounds_raise (params : list (list Q)) (dmin dmax : list Q)
    (step : Q) (R K : nat) :
  rectangular params R K -> (1 < R)%nat -> (0 < K)%nat ->
  (length dmax <> R /\ length dmax <> 1%nat) \/
  (length dmin <> R /\ length dmin <> 1%nat) ->
  consistent_polytope_nd (of_matrix params) (of_vector dmin) (of_vector dmax)
    step = Some (Raise ValueError).
Proof.
  intros Hrect HR HK Hbad.
  assert (Hne : params <> []).
  { destruct Hrect as [Hl _]. intros ->. simpl in Hl. lia. }
  rewrite (consistent_polytope_nd_matrix params dmin dmax step Hne).
  destruct (envelope_exists params R K Hrect HK) as (pmin & pmax & Hpmin & Hpmax).
  rewrite (polytope_grid_loop params dmin dmax pmin pmax step R K Hrect
             ltac:(lia) Hpmin Hpmax).
  destruct K as [|K']; [lia|]. cbn [seq column_loop].
  unfold column_points.
  rewrite (delta_min_k_mismatch dmin dmax pmin (column params 0) R);
    [reflexivity | | | exact HR | exact Hbad].
  - apply mapM_length in Hpmin. destruct Hrect as [Hl _]. congruence.
  - rewrite column_length. now destruct Hrect.
Qed.

Lemma mismatched_bounds_raise_witness :
  consistent_polytope_nd (of_matrix [[0; 1]; [0; 2]]) (of_vector [-1; -1; -1])
    (of_vector [1; 1; 1]) 1 = Some (Raise ValueError).
Proof.
  apply (mismatched_bounds_raise [[0; 1]; [0; 2]] [-1; -1; -1] [1; 1; 1] 1 2 2).
  - split; [reflexivity|]. repeat constructor.
  - lia.
  - lia.
  - left. simpl. split; lia.
Defined.

(** ** Coverage of the columns *)

(** On a well-shaped input with a positive step, a returned list holds
    at least one pair for every column of [params]: a column whose
    intervals would give no point makes the whole call fail instead. *)
Theorem returned_output_covers_every_column (params : list (list Q))
    (dmin dmax : list Q) (step : Q) (R K : nat) (out : list pair_t) :
  rectangular params R K ->
  length dmin = R -> length dmax = R ->
  0 < step ->
  consistent_polytope_nd (of_matrix params) (of_vector dmin) (of_vector dmax)
    step = Some (Ok out) ->
  forall k, (k < K)%nat ->
    exists delta_p, In (column params k, delta_p) out.
Proof.
  intros Hrect Hdmin Hdmax Hstep H k Hk.
  destruct params as [|row rows]; [discriminate|].
  rewrite consistent_polytope_nd_matrix in H by discriminate.
  injection H as H. set (params := row :: rows) in *.
  assert (HR : (0 < R)%nat).
  { destruct Hrect as [Hl _]. simpl in Hl. lia. }
  pose proof H as H'. unfold polytope_grid in H'.
  apply bind_Ok in H' as (pmin & Hpmin & H').
  apply bind_Ok in H' as (pmax & Hpmax & _).
  destruct (gap_cases
              (fun k d => lo_at params dmin dmax pmin k d
                          - hi_at params dmax pmax k d) step R K)
    as [Hsmall|Hlarge].
  - destruct (polytope_grid_completes params dmin dmax pmin pmax step R K
                Hrect HR Hdmin Hdmax Hpmin Hpmax Hstep Hsmall)
      as (groups & Hout & Hlen & Hgroups).
    rewrite H in Hout. injection Hout as ->.
    destruct (Hgroups k Hk) as [Hbody Hne].
    destruct (nth k groups []) as [|[p delta] g] eqn:Eg; [contradiction|].
    apply column_points_Ok in Hbody as (lo & hi & axes & _ & _ & _ & _ & HF).
    destruct (Forall2_in_r _ _ _ (p, delta) HF (or_introl eq_refl))
      as (combo & _ & Hp & _).
    simpl in Hp. exists delta.
    apply in_concat. exists ((p, delta) :: g).
    split.
    + assert (Hin : In (nth k groups []) groups) by (apply nth_In; lia).
      rewrite Eg in Hin. exact Hin.
    + left. now rewrite Hp.
  - rewrite (polytope_grid_fails params dmin dmax pmin pmax step R K
               Hrect HR Hdmin Hdmax Hpmin Hpmax Hstep Hlarge) in H.
    discriminate.
Qed.

Lemma returned_output_covers_every_column_witness :
  exists delta_p,
    In (column [[0; 1]] 1, delta_p)
       [([0], [1 # 2]); ([0], [1]); ([1], [1 # 2])].
Proof.
  apply (returned_output_covers_every_column [[0; 1]] [1 # 2] [1] 1 1 2).
  - split; [reflexivity|]. repeat constructor.
  - reflexivity.
  - reflexivity.
  - reflexivity.
  - vm_compute. reflexivity.
  - lia.
Defined.

(** ** Corners of the feasible box *)

Lemma picks_in_cartesian (pick : list Q -> Q) (axes : list (list Q)) :
  (forall a, In a axes -> In (pick a) a) ->
  In (map pick axes) (cartesian axes).
Proof.
  intros H. apply in_cartesian.
  induction axes as [|a axes IH]; simpl; constructor.
  - apply H. now left.
  - apply IH. intros b Hb. apply H. now right.
Qed.

Lemma last_in (l : list Q) (d : Q) : l <> [] -> In (last l d) l.
Proof.
  induction l as [|a l IH]; intros Hne; [contradiction|].
  destruct l as [|b l]; [now left|].
  right. apply IH. discriminate.
Qed.

Lemma last_cons_default (first : Q) (rest : list Q) :
  last (first :: rest) 0 = last rest first.
Proof.
  destruct rest as [|b rest]; [reflexivity|].
  change (last (b :: rest) 0 = last (b :: rest) first). apply last_default.
Qed.

(** When every interval is feasible, both extreme corners of every
    column's box are sampled: the output holds a pair whose perturbation
    equals [lo] in every dimension and one whose perturbation equals [hi]
    in every dimension. *)
Theorem interval_corners_are_emitted (params : list (list Q))
    (dmin dmax pmin pmax : list Q) (step : Q) (R K : nat)
    (out : list pair_t) :
  rectangular params R K ->
  length dmin = R -> length dmax = R ->
  mapM row_min params = Ok pmin -> mapM row_max params = Ok pmax ->
  0 < step ->
  (forall k d, (k < K)%nat -> (d < R)%nat ->
     lo_at params dmin dmax pmin k d <= hi_at params dmax pmax k d) ->
  consistent_polytope_nd (of_matrix params) (of_vector dmin) (of_vector dmax)
    step = Some (Ok out) ->
  forall k, (k < K)%nat ->
    (exists delta_p,
       In (column params k, delta_p) out /\
       forall d, (d < R)%nat ->
         nth d delta_p 0 == lo_at params dmin dmax pmin k d) /\
    (exists delta_p,
       In (column params k, delta_p) out /\
       forall d, (d < R)%nat ->
         nth d delta_p 0 == hi_at params dmax pmax k d).
Proof.
  intros Hrect Hdmin Hdmax Hpmin Hpmax Hstep Hfeas H k Hk.
  destruct params as [|row rows]; [discriminate|].
  rewrite consistent_polytope_nd_matrix in H by discriminate.
  injection H as H. set (params := row :: rows) in *.
  assert (HR : (0 < R)%nat).
  { destruct Hrect as [Hl _]. simpl in Hl. lia. }
  assert (Hsmall : forall k d, (k < K)%nat -> (d < R)%nat ->
            lo_at params dmin dmax pmin k d - hi_at params dmax pmax k d
            < step).
  { intros j d Hj Hd. specialize (Hfeas j d Hj Hd). lra. }
  destruct (polytope_grid_completes params dmin dmax pmin pmax step R K
              Hrect HR Hdmin Hdmax Hpmin Hpmax Hstep Hsmall)
    as (groups & Hout & Hlen & Hgroups).
  rewrite H in Hout. injection Hout as ->.
  destruct (Hgroups k Hk) as [Hbody _].
  destruct (intervals_at params dmin dmax pmin pmax R K Hrect Hdmin Hdmax
              Hpmin Hpmax k) as (lo & hi & Hlo & Hhi & Llo & Lhi & Hnth).
  assert (Hpts : forall d, (d < R)%nat ->
            exists first rest,
              range_points (nth d lo 0) (nth d hi 0) step = Ok (first :: rest)
              /\ first == nth d lo 0 /\ last rest first == nth d hi 0).
  { intros d Hd.
    destruct (range_points_feasible_spec (nth d lo 0) (nth d hi 0) step Hstep)
      as (first & rest & Hrp & Hf & Hl & _).
    - destruct (Hnth d Hd) as [-> ->]. now apply Hfeas.
    - now exists first, rest. }
  destruct (delta_ranges_total lo hi step R Llo Lhi) as [axes Hax].
  { intros d Hd. destruct (Hpts d Hd) as (f & r & Hp & _). now exists (f :: r). }
  pose proof Hax as Hax'.
  apply (delta_ranges_Ok lo hi step R axes Llo Lhi) in Hax' as [Lax Hnthax].
  rewrite (column_points_of_axes params dmin dmax pmin pmax step R K Hrect HR
             Hdmin Hdmax k lo hi axes Hlo Hhi Hax Lax) in Hbody.
  injection Hbody as Hbody.
  assert (Haxis : forall a, In a axes ->
            exists d first rest, (d < R)%nat /\ a = first :: rest /\
              nth d axes [] = a /\
              first == nth d lo 0 /\ last rest first == nth d hi 0).
  { intros a Ha. apply (In_nth _ _ []) in Ha as (d & Hd & Ea).
    rewrite Lax in Hd. destruct (Hpts d Hd) as (f & r & Hp & Hf & Hl).
    rewrite (Hnthax d Hd), Ea in Hp. injection Hp as ->.
    now exists d, f, r. }
  assert (Hemit : forall pick : list Q -> Q,
            (forall a, In a axes -> In (pick a) a) ->
            In (column params k,
                zip_with Qmin (zip_with Qmax (map pick axes) dmin) dmax)
               (concat groups)).
  { intros pick Hpick. apply in_concat. exists (nth k groups []).
    split; [apply nth_In; lia|]. rewrite <- Hbody.
    apply (in_map (fun combo =>
                     (column params k,
                      zip_with Qmin (zip_with Qmax combo dmin) dmax))).
    now apply picks_in_cartesian. }
  assert (Hval : forall (pick : list Q -> Q) d, (d < R)%nat ->
            pick [] = 0 ->
            lo_at params dmin dmax pmin k d <= pick (nth d axes []) ->
            pick (nth d axes []) <= hi_at params dmax pmax k d ->
            nth d (zip_with Qmin (zip_with Qmax (map pick axes) dmin) dmax) 0
            == pick (nth d axes [])).
  { intros pick d Hd Hnil Hge Hle.
    assert (Lm : length (map pick axes) = R) by (rewrite length_map; exact Lax).
    rewrite (zip_with_nth Qmin), (zip_with_nth Qmax)
      by (rewrite ?(zip_with_length_n Qmax (map pick axes) dmin R);
          congruence || lia).
    assert (Em : nth d (map pick axes) 0 = pick (nth d axes [])).
    { rewrite <- Hnil. apply map_nth. }
    rewrite Em. revert Hge Hle.
    unfold lo_at, hi_at, delta_min_formula, delta_max_formula.
    set (c := pick (nth d axes [])). set (a := nth d dmin 0).
    set (b := nth d dmax 0). set (e := entry params d k).
    set (mn := nth d pmin 0). set (mx := nth d pmax 0).
    intros Hge Hle.
    pose proof (Q.le_max_l a (Qmax (mn - e) (- b))) as H1.
    pose proof (Q.le_min_l b (Qmin (mx - e) b)) as H4.
    assert (E1 : Qmax c a == c) by (apply Q.max_l; lra).
    rewrite E1. apply Q.min_l. lra. }
  split.
  - exists (zip_with Qmin (zip_with Qmax (map (hd 0) axes) dmin) dmax).
    split.
    + apply Hemit. intros a Ha.
      destruct (Haxis a Ha) as (d & f & r & _ & -> & _). now left.
    + intros d Hd. destruct (Hnth d Hd) as [El Eh].
      destruct (Hpts d Hd) as (f & r & Hp & Hf & Hl).
      rewrite (Hnthax d Hd) in Hp. injection Hp as Ea.
      specialize (Hfeas k d Hk Hd).
      rewrite (Hval (hd 0) d Hd eq_refl); rewrite Ea; simpl hd;
        rewrite Hf, El; lra.
  - exists (zip_with Qmin
              (zip_with Qmax (map (fun a => last a 0) axes) dmin) dmax).
    split.
    + apply (Hemit (fun a => last a 0)). intros a Ha.
      destruct (Haxis a Ha) as (d & f & r & _ & -> & _).
      apply last_in. discriminate.
    + intros d Hd. destruct (Hnth d Hd) as [El Eh].
      destruct (Hpts d Hd) as (f & r & Hp & Hf & Hl).
      rewrite (Hnthax d Hd) in Hp. injection Hp as Ea.
      specialize (Hfeas k d Hk Hd).
      rewrite (Hval (fun a => last a 0) d Hd eq_refl); rewrite Ea;
        rewrite last_cons_default, Hl, Eh; lra.
Qed.

Lemma interval_corners_are_emitted_witness :
  (exists delta_p,
     In (column [[0; 1]; [0; 2]] 1, delta_p)
        [([0; 0], [0; 0]); ([0; 0], [0; 1]); ([0; 0], [1; 0]);
         ([0; 0], [1; 1]); ([1; 2], [-1; -1]); ([1; 2], [-1; 0]);
         ([1; 2], [0; -1]); ([1; 2], [0; 0])] /\
     forall d, (d < 2)%nat ->
       nth d delta_p 0 == lo_at [[0; 1]; [0; 2]] [-1; -1] [1; 1] [0; 0] 1 d) /\
  (exists delta_p,
     In (column [[0; 1]; [0; 2]] 1, delta_p)
        [([0; 0], [0; 0]); ([0; 0], [0; 1]); ([0; 0], [1; 0]);
         ([0; 0], [1; 1]); ([1; 2], [-1; -1]); ([1; 2], [-1; 0]);
         ([1; 2], [0; -1]); ([1; 2], [0; 0])] /\
     forall d, (d < 2)%nat ->
       nth d delta_p 0 == hi_at [[0; 1]; [0; 2]] [1; 1] [1; 2] 1 d).
Proof.
  apply (interval_corners_are_emitted
           [[0; 1]; [0; 2]] [-1; -1] [1; 1] [0; 0] [1; 2] 1 2 2).
  - split; [reflexivity|]. repeat constructor.
  - reflexivity.
  - reflexivity.
  - reflexivity.
  - reflexivity.
  - reflexivity.
  - intros k d Hk Hd.
    destruct k as [|[|k]]; [| |lia]; destruct d as [|[|d]]; try lia;
      vm_compute; discriminate.
  - vm_compute. reflexivity.
  - lia.
Defined.

(** ** Inputs outside the intended domain *)

(** When the bounds of a dimension are inverted
    ([delta_params_min[d] > delta_params_max[d]]), the final clip sends
    every emitted perturbation of that dimension to
    [delta_params_max[d]]. *)
Theorem inverted_bounds_collapse_to_max (params : list (list Q))
    (dmin dmax : list Q) (step : Q) (R K : nat) (out : list pair_t) :
  rectangular params R K ->
  length dmin = R -> length dmax = R ->
  consistent_polytope_nd (of_matrix params) (of_vector dmin) (of_vector dmax)
    step = Some (Ok out) ->
  forall p_k delta_p, In (p_k, delta_p) out ->
    forall d, (d < R)%nat -> nth d dmax 0 < nth d dmin 0 ->
      nth d delta_p 0 == nth d dmax 0.
Proof.
  intros Hrect Hdmin Hdmax H p delta Hin d Hd Hinv.
  destruct params as [|row rows]; [discriminate|].
  rewrite consistent_polytope_nd_matrix in H by discriminate.
  injection H as H. set (params := row :: rows) in *.
  destruct (emitted_pair_origin params dmin dmax step out p delta H Hin)
    as (pmin & pmax & k & lo & hi & axes & combo & _ & _ & _ & _ & _ & _
        & Hax & Hcombo & Hclip).
  destruct Hrect as [Hrows _]. rewrite Hrows in Hax.
  apply delta_ranges_length in Hax.
  apply combo_length in Hcombo.
  rewrite clip_vec_same in Hclip by congruence. injection Hclip as <-.
  rewrite (zip_with_nth Qmin), (zip_with_nth Qmax)
    by (rewrite ?(zip_with_length_n Qmax combo dmin R); congruence || lia).
  apply Q.min_r.
  eapply Qle_trans; [apply Qlt_le_weak, Hinv | apply Q.le_max_r].
Qed.

Lemma inverted_bounds_collapse_to_max_witness :
  consistent_polytope_nd (of_matrix [[0; 1]]) (of_vector [1 # 2])
    (of_vector [0]) 1 = Some (Ok [([0], [0]); ([1], [0])]) /\
  nth 0 [0] 0 < nth 0 [1 # 2] 0 /\
  nth 0 [0] 0 == nth 0 [0] 0.
Proof.
  split; [vm_compute; reflexivity|]. split; [reflexivity|].
  refine (inverted_bounds_collapse_to_max [[0; 1]] [1 # 2] [0] 1 1 2
            [([0], [0]); ([1], [0])] _ _ _ _ [1] [0] _ 0%nat _ _).
  - split; [reflexivity|]. repeat constructor.
  - reflexivity.
  - reflexivity.
  - vm_compute. reflexivity.
  - simpl. right. left. reflexivity.
  - lia.
  - reflexivity.
Defined.

(** A negative step is not rejected.  On a non-degenerate feasible
    interval the count is at most 1, so an axis that is produced holds
    just the two end points [lo] and [hi]; no interior point is ever
    generated. *)
Theorem negative_step_axis_is_the_two_ends (lo hi step : Q) (pts : list Q) :
  step < 0 -> lo < hi ->
  range_points lo hi step = Ok pts ->
  exists first, pts = [first; hi] /\ first == lo.
Proof.
  intros Hs Hlt Hrp.
  assert (Hq : (hi - lo) / step == - ((hi - lo) / - step))
    by (field; lra).
  assert (Hpos : 0 < - step) by lra.
  unfold range_points in Hrp. rewrite num_dp_points_step in Hrp by lra.
  destruct (Qlt_le_dec (hi - lo) (- step)) as [Hgap|Hgap].
  - assert (E : py_int ((hi - lo) / step) = 0%Z).
    { apply py_int_small_neg; rewrite Hq.
      - assert ((hi - lo) / - step < 1); [|lra].
        apply Qlt_shift_div_r; [exact Hpos | lra].
      - assert (0 <= (hi - lo) / - step); [|lra].
        apply Qle_shift_div_l; [exact Hpos | lra]. }
    rewrite E in Hrp. unfold bind at 1 in Hrp.
    change (stepped lo hi step (0 + 1)) with [py_min (grid lo step 0) hi] in Hrp.
    pose proof (grid_0 lo step) as H0.
    rewrite py_min_le in Hrp by lra. cbn [last_item last bind] in Hrp.
    assert (El : Qlt_bool (grid lo step 0) hi = true)
      by (apply Qlt_bool_iff; lra).
    rewrite El in Hrp. injection Hrp as <-.
    exists (grid lo step 0). split; [reflexivity | exact H0].
  - assert (E : (py_int ((hi - lo) / step) <= -1)%Z).
    { apply py_int_le_m1. rewrite Hq.
      assert (1 <= (hi - lo) / - step); [|lra].
      apply Qle_shift_div_l; [exact Hpos | lra]. }
    unfold bind at 1 in Hrp. unfold stepped in Hrp.
    replace (Z.to_nat (py_int ((hi - lo) / step) + 1)) with 0%nat in Hrp by lia.
    discriminate.
Qed.

Lemma negative_step_axis_is_the_two_ends_witness :
  exists first, [0; 1] = [first; 1] /\ first == 0.
Proof.
  apply (negative_step_axis_is_the_two_ends 0 1 (-2) [0; 1]);
    reflexivity.
Defined.
